(** * cheese-board: the soundboard server of [src/index.js]

    The whole program is one Node.js module: an Express application with
    three POST handlers ([/upload], [/play], [/stop]) and one GET handler
    ([/mappings]), a WebSocket fan-out of the clip registry, and a Discord
    voice player fed by one [ffmpeg] child process per playback.

    The module's top-level [let] variables become the fields of [State].
    Every handler is an [async] function: it runs synchronously up to its
    next [await], and other handlers and event callbacks run in between.
    The embedding keeps that granularity: a [Config] holds the state and the
    handlers suspended at an [await], an [Input] is one thing the event loop
    can deliver, and [step] runs the JavaScript that this delivery triggers
    up to the next suspension point.  What the code does to the outside
    world is recorded as a list of [Event]s.

    The libraries stay outside.  The audio player is known by the resource
    it holds and by its one-shot Idle listeners; [player.stop()] changes
    nothing by itself, the player reports Idle afterwards, as an input of
    its own, and it may do so at any time while it holds a resource.  A
    child process is known by its input file and by whether it has been
    signalled.  Request bodies are taken to be parsed into string fields.
    Of the library calls only [path.join] is followed into its failure: it
    throws on the [undefined] it is handed when the name of a play is one
    every object inherits, which is how the catch-all of line 238 is
    entered; [spawn] and [kill] are taken to return, and a child that
    could not be started reports it through its ['error'] event. *)

From stdpp Require Import gmap strings list fin_maps.

Open Scope string_scope.
Open Scope list_scope.

(** ** Data model *)

(** A registry entry, [{ filename, emoji }] (line 156). *)
Record Clip := mkClip { filename : string; emoji : string }.

#[global] Instance Clip_eq_dec : EqDecision Clip.
Proof. solve_decision. Defined.

(** The sound map is a plain JavaScript object used as a dictionary from
    clip name to entry.  [m !! name = Some clip] says that the read
    [soundMap[name]] finds the clip object [clip].  For every name but
    [__proto__] that is an own property of the object, put there by the
    assignment of line 156 or by [JSON.parse].  The key [__proto__] is the
    object's prototype: [soundMap['__proto__'] = clip] goes through the
    setter every object inherits and makes [clip] the prototype, which is
    where the read of that name finds it again.  It is no own property, so
    [JSON.stringify] and [res.json] leave it out. *)
Abbreviation SoundMap := (gmap string Clip).

(** The own enumerable properties: what [JSON.stringify] writes of the
    object. *)
Definition listed (m : SoundMap) : SoundMap := delete "__proto__" m.

(** The properties every object inherits from [Object.prototype]. *)
Definition OBJECT_PROTOTYPE : list string :=
  ["constructor"; "__defineGetter__"; "__defineSetter__"; "hasOwnProperty";
   "__lookupGetter__"; "__lookupSetter__"; "isPrototypeOf";
   "propertyIsEnumerable"; "toString"; "valueOf"; "__proto__"; "toLocaleString"].

(** The read [soundMap[name]] of a name that is no key of [m] still finds
    something truthy when the name is inherited: a method of
    [Object.prototype] or that object itself, or, once a clip has been made
    the prototype, that clip's non-empty [filename] or [emoji] string. *)
Definition inherited (m : SoundMap) (name : string) : bool :=
  bool_decide (name ∈ OBJECT_PROTOTYPE) ||
  match m !! "__proto__" with
  | Some c =>
      bool_decide (name = "filename" /\ filename c <> "") ||
      bool_decide (name = "emoji" /\ emoji c <> "")
  | None => false
  end.

(** The length in bytes of the text [JSON.stringify(m, null, 2)], with the
    strings read as UTF-8: a quoted string takes its two quotes, two bytes
    for a quote, a backslash or one of the five short escapes, six for any
    other control character and the byte itself otherwise; an entry takes
    its three strings and 43 bytes of punctuation, indentation and line
    ends; the braces of the object take two.  The order of the keys plays
    no part in it. *)
Definition json_char_len (a : Ascii.ascii) : nat :=
  let n := Ascii.nat_of_ascii a in
  if bool_decide (n = 34 \/ n = 92) then 2
  else if bool_decide (n = 8 \/ n = 9 \/ n = 10 \/ n = 12 \/ n = 13) then 2
  else if bool_decide (n < 32) then 6
  else 1.

Fixpoint json_string_len (s : string) : nat :=
  match s with
  | EmptyString => 2
  | String a s' => json_char_len a + json_string_len s'
  end.

Definition json_size (m : SoundMap) : nat :=
  2 + map_fold (fun name c acc =>
                  acc + 43 + json_string_len name + json_string_len (filename c)
                      + json_string_len (emoji c))
               0 (listed m).

(** What a file holds.  [Json m] stands for the text
    [JSON.stringify(m, null, 2)]; [JSON.parse] gives the object with the
    own properties [listed m] back on it.  [Raw] is for bytes that are no
    JSON text: sound data.  A snapshot file holding JSON of another shape
    ([null], an array, an object with an own [__proto__] key), which the
    server never writes, is outside the model. *)
Inductive Content :=
| Raw (bytes : list Byte.byte)
| Json (m : SoundMap).

(** A file on disk is whole, or torn: [fs.writeFile] opens its target with
    flag ['w'], which truncates it, and then writes the data; [Torn c n] is
    the file after the truncation and the first [n] bytes of [c], when the
    write stopped there (an I/O error, or the process died).  A proper
    prefix of a JSON object text is rejected by [JSON.parse], the object
    being closed by the last byte only; once [n] reaches the length of the
    text the file is complete. *)
Inductive FileData :=
| Whole (c : Content)
| Torn (c : Content) (n : nat).

Abbreviation Disk := (gmap string FileData).

(** How one [fs.writeFile] call ends. *)
Inductive WriteOutcome :=
| Written                 (* the promise resolves *)
| FailedClean             (* rejected before the target was opened *)
| FailedTorn (n : nat).   (* rejected or cut short after [n] bytes *)

Definition write_ok (w : WriteOutcome) : bool :=
  match w with Written => true | _ => false end.

Definition fs_writeFile (path : string) (data : Content) (w : WriteOutcome)
    (d : Disk) : Disk :=
  match w with
  | Written => <[path := Whole data]> d
  | FailedClean => d
  | FailedTorn n => <[path := Torn data n]> d
  end.

(** Lines 27-28.  [path.join] on the relative names used here. *)
Definition path_join (dir name : string) : string := dir +:+ "/" +:+ name.
Definition SOUND_DIR : string := "sounds".
Definition MAP_FILE : string := path_join SOUND_DIR "mappings.json".

(** Lines 33-39: read and parse the snapshot, or start empty. *)
Definition loadMap (d : Disk) : SoundMap :=
  match d !! MAP_FILE with
  | Some (Whole (Json m)) => listed m
  | Some (Torn (Json m) n) => if decide (json_size m <= n) then listed m else ∅
  | _ => ∅
  end.

(** Child processes are named by the order in which they were spawned. *)
Abbreviation Handle := nat.

Record Proc := mkProc {
  p_input : string;    (* the [-i] argument *)
  p_killed : bool;     (* [ChildProcess.killed]: [kill()] was called on it *)
  p_done : bool        (* the player went Idle while playing its output *)
}.

(** The part of a [/play] activation that survives its [await]s: the
    request and the locals [sound], [soundData], [soundPath]. *)
Record PlayK := mkPlayK {
  k_rid : nat;
  k_sound : string;
  k_soundData : Clip;
  k_soundPath : string
}.

(** One-shot listeners on the player's Idle status. *)
Inductive Listener :=
| OnFinished (file : string)   (* lines 231-235 *)
| OnStopped (k : PlayK).       (* line 265, resolving the promise awaited at line 199 *)

(** The locals of a [/upload] activation. *)
Record UploadK := mkUploadK {
  u_rid : nat;
  u_name : string;
  u_emoji : option string;
  u_filename : string;
  u_filepath : string;
  u_buffer : list Byte.byte
}.

(** A handler suspended at an [await] on the file system. *)
Inductive Suspended :=
| AwaitStat (k : PlayK)                       (* line 181 *)
| AwaitSoundWrite (u : UploadK)               (* line 150 *)
| AwaitMapWrite (u : UploadK) (data : Content). (* lines 42 and 157 *)

(** The module-level variables, the disk, and the two library objects the
    handlers drive: the audio player and the WebSocket server. *)
Record State := mkState {
  soundMap : SoundMap;                 (* line 33 *)
  disk : Disk;
  connection : bool;                   (* line 65: [connection !== null] *)
  currentProcess : option Handle;      (* line 66 *)
  isPlaying : bool;                    (* line 67 *)
  playerResource : option Handle;      (* [player.state]: [None] is Idle *)
  idleListeners : list Listener;       (* [player.once(Idle, ...)], oldest first *)
  procs : list Proc;                   (* every child spawned so far *)
  wsClients : list bool;               (* [wss.clients], with [readyState === OPEN] *)
  readyPending : bool                  (* line 69: the [once('ready')] listener is still registered *)
}.

Definition set_soundMap (m : SoundMap) (s : State) : State :=
  mkState m (disk s) (connection s) (currentProcess s) (isPlaying s)
          (playerResource s) (idleListeners s) (procs s) (wsClients s) (readyPending s).
Definition set_disk (d : Disk) (s : State) : State :=
  mkState (soundMap s) d (connection s) (currentProcess s) (isPlaying s)
          (playerResource s) (idleListeners s) (procs s) (wsClients s) (readyPending s).
Definition set_connection (b : bool) (s : State) : State :=
  mkState (soundMap s) (disk s) b (currentProcess s) (isPlaying s)
          (playerResource s) (idleListeners s) (procs s) (wsClients s) (readyPending s).
Definition set_currentProcess (p : option Handle) (s : State) : State :=
  mkState (soundMap s) (disk s) (connection s) p (isPlaying s)
          (playerResource s) (idleListeners s) (procs s) (wsClients s) (readyPending s).
Definition set_isPlaying (b : bool) (s : State) : State :=
  mkState (soundMap s) (disk s) (connection s) (currentProcess s) b
          (playerResource s) (idleListeners s) (procs s) (wsClients s) (readyPending s).
Definition set_playerResource (r : option Handle) (s : State) : State :=
  mkState (soundMap s) (disk s) (connection s) (currentProcess s) (isPlaying s)
          r (idleListeners s) (procs s) (wsClients s) (readyPending s).
Definition set_idleListeners (l : list Listener) (s : State) : State :=
  mkState (soundMap s) (disk s) (connection s) (currentProcess s) (isPlaying s)
          (playerResource s) l (procs s) (wsClients s) (readyPending s).
Definition set_procs (l : list Proc) (s : State) : State :=
  mkState (soundMap s) (disk s) (connection s) (currentProcess s) (isPlaying s)
          (playerResource s) (idleListeners s) l (wsClients s) (readyPending s).
Definition set_wsClients (l : list bool) (s : State) : State :=
  mkState (soundMap s) (disk s) (connection s) (currentProcess s) (isPlaying s)
          (playerResource s) (idleListeners s) (procs s) l (readyPending s).
Definition set_readyPending (b : bool) (s : State) : State :=
  mkState (soundMap s) (disk s) (connection s) (currentProcess s) (isPlaying s)
          (playerResource s) (idleListeners s) (procs s) (wsClients s) b.

(** ** Observable events *)

Inductive Body :=
| BError (msg : string)       (* [{ error: msg }] *)
| BStatus (msg : string)      (* [{ status: msg }] *)
| BSounds (m : SoundMap).     (* the registry object; the body reads [listed m] *)

Inductive Response :=
| ResJson (code : nat) (b : Body)
| ResRedirect (loc : string).

Inductive LogMsg :=
| LPlayRequest (sound file : string)   (* lines 193-196 *)
| LPlaybackStarted                     (* lines 226-227 *)
| LFinished (file : string)            (* line 232 *)
| LFfmpegError                         (* line 215 *)
| LPlayError                           (* line 239 *)
| LSaveFileFailed                      (* line 152 *)
| LWsConnected                         (* line 127 *)
| LWsDisconnected                      (* line 131 *)
| LReady (joined : bool).              (* lines 70-98 *)

Inductive Event :=
| Respond (rid : nat) (r : Response)
| Rejected (rid : nat) (path : string)     (* the handler's promise rejects with the write error on [path]; nothing was sent *)
| Console (m : LogMsg)
| Spawn (h : Handle) (input : string)      (* line 204 *)
| Kill (h : Handle)                        (* lines 247 and 259 *)
| PlayerPlay (h : Handle)                  (* line 229 *)
| PlayerStop                               (* lines 218, 250, 266 *)
| PlayerIdle (h : Handle)                  (* the player turns Idle, dropping the output of [h] *)
| FsWrite (path : string) (data : Content) (w : WriteOutcome)
| WsSend (client : nat) (m : SoundMap)     (* line 128: [m] is stringified, the client reads [listed m] *)
| Broadcast (clients : list nat) (m : SoundMap). (* lines 117-124, likewise *)

#[global] Instance byte_eq_dec : EqDecision Byte.byte.
Proof. intros x y. destruct (Byte.byte_eq_dec x y); [left | right]; assumption. Defined.
#[global] Instance Content_eq_dec : EqDecision Content.
Proof. solve_decision. Defined.
#[global] Instance WriteOutcome_eq_dec : EqDecision WriteOutcome.
Proof. solve_decision. Defined.
#[global] Instance Body_eq_dec : EqDecision Body.
Proof. solve_decision. Defined.
#[global] Instance Response_eq_dec : EqDecision Response.
Proof. solve_decision. Defined.
#[global] Instance LogMsg_eq_dec : EqDecision LogMsg.
Proof. solve_decision. Defined.
#[global] Instance Event_eq_dec : EqDecision Event.
Proof. solve_decision. Defined.

(** ** Child processes and the audio player *)

Definition killed (h : Handle) (s : State) : bool :=
  default false (p_killed <$> procs s !! h).

(** [child.kill()]. *)
Definition kill (h : Handle) (s : State) : State :=
  set_procs (alter (fun p => mkProc (p_input p) true (p_done p)) h (procs s)) s.

Definition mark_done (h : Handle) (s : State) : State :=
  set_procs (alter (fun p => mkProc (p_input p) (p_killed p) true) h (procs s)) s.

(** A child counts as active from its spawn until it is signalled or the
    player has turned Idle on its output. *)
Definition proc_active (p : Proc) : bool := negb (p_killed p) && negb (p_done p).

Definition active_handles (s : State) : list Handle :=
  filter (fun h => default false (proc_active <$> procs s !! h)) (seq 0 (length (procs s))).

(** The same set, read off the events alone. *)
Definition live_step (l : list Handle) (e : Event) : list Handle :=
  match e with
  | Spawn h _ => l ++ [h]
  | Kill h => filter (fun x => x ≠ h) l
  | PlayerIdle h => filter (fun x => x ≠ h) l
  | _ => l
  end.

Definition live_after (l : list Handle) (t : list Event) : list Handle :=
  foldl live_step l t.

(** ** [POST /play] (lines 169-242) *)

(** Lines 171-181, up to [await fs.stat(soundPath)].  When the read of
    line 173 finds an inherited value instead of a clip, the test of line
    174 lets it pass, its [filename] is [undefined], [path.join] throws on
    line 178 and the catch-all of lines 238-241 answers. *)
Definition play_request (rid : nat) (sound : string) (s : State)
    : list Event + PlayK :=
  match soundMap s !! sound with
  | None =>
      if inherited (soundMap s) sound then
        inl [Console LPlayError;
             Respond rid (ResJson 500 (BError "Internal server error"))]
      else
        inl [Respond rid (ResJson 404
               (BError ("Sound key '" +:+ sound +:+ "' not found")))]
  | Some soundData =>
      inr (mkPlayK rid sound soundData (path_join SOUND_DIR (filename soundData)))
  end.

(** Lines 256-269: the executor of the promise [stopCurrentPlayback]
    returns.  The boolean tells whether [resolve()] was called at once;
    otherwise the resolver waits among the player's Idle listeners. *)
Definition stopCurrentPlayback (k : PlayK) (s : State)
    : State * list Event * bool :=
  let '(s1, e1) :=
    match currentProcess s with
    | Some h =>
        if killed h s then (s, [])
        else (set_currentProcess None (kill h s), [Kill h])
    | None => (s, [])
    end in
  match playerResource s1 with
  | None => (s1, e1, true)
  | Some _ =>
      (set_idleListeners (idleListeners s1 ++ [OnStopped k]) s1,
       e1 ++ [PlayerStop], false)
  end.

(** Lines 202-237: start the decoder and hand its output to the player. *)
Definition play_start (k : PlayK) (s : State) : State * list Event :=
  let h := length (procs s) in
  let s1 := set_isPlaying true s in
  let s2 := set_currentProcess (Some h)
              (set_procs (procs s1 ++ [mkProc (k_soundPath k) false false]) s1) in
  let s3 := set_playerResource (Some h) s2 in
  let s4 := set_idleListeners
              (idleListeners s3 ++ [OnFinished (filename (k_soundData k))]) s3 in
  (s4, [Spawn h (k_soundPath k); Console LPlaybackStarted; PlayerPlay h;
        Respond (k_rid k) (ResJson 200 (BStatus "Playing"))]).

(** Lines 182-200, resumed when [fs.stat] settles, running on into
    [play_start] when nothing has to be awaited.  The timing figures of
    lines 190-196 are diagnostics and are left out of the log entry. *)
Definition play_after_stat (k : PlayK) (s : State) : State * list Event :=
  match disk s !! k_soundPath k with
  | None =>
      (s, [Respond (k_rid k) (ResJson 404
             (BError ("File '" +:+ filename (k_soundData k) +:+ "' does not exist")))])
  | Some _ =>
      if negb (connection s) then
        (s, [Respond (k_rid k) (ResJson 500 (BError "Bot not connected"))])
      else
        let e0 := [Console (LPlayRequest (k_sound k) (filename (k_soundData k)))] in
        if isPlaying s then
          let '(s1, e1, resolved) := stopCurrentPlayback k s in
          if resolved then
            let '(s2, e2) := play_start k s1 in (s2, e0 ++ e1 ++ e2)
          else (s1, e0 ++ e1)
        else
          let '(s2, e2) := play_start k s in (s2, e0 ++ e2)
  end.

(** ** [POST /stop] (lines 245-253) *)

Definition stop_request (rid : nat) (s : State) : State * list Event :=
  let '(s1, e1) :=
    match currentProcess s with
    | Some h => (set_currentProcess None (kill h s), [Kill h])
    | None => (s, [])
    end in
  (set_isPlaying false s1,
   e1 ++ [PlayerStop; Respond rid (ResJson 200 (BStatus "Stopped"))]).

(** ** Player and process callbacks *)

(** One Idle listener runs.  A finished-playing listener clears the slot; a
    stop resolver only settles its promise, so the handler awaiting it is
    queued to continue once every listener has run. *)
Definition run_listener (acc : State * list Event * list PlayK) (l : Listener)
    : State * list Event * list PlayK :=
  let '(s, e, ks) := acc in
  match l with
  | OnFinished f =>
      (set_isPlaying false (set_currentProcess None s),
       e ++ [Console (LFinished f)], ks)
  | OnStopped k => (s, e, ks ++ [k])
  end.

Definition resume_play (acc : State * list Event) (k : PlayK) : State * list Event :=
  let '(s, e) := acc in
  let '(s', e') := play_start k s in (s', e ++ e').

(** The player turns Idle: the stream it was playing has ended, or a
    requested stop has taken effect.  Its one-shot listeners run in the
    order they were registered, then the handlers they released. *)
Definition player_idle (s : State) : State * list Event :=
  match playerResource s with
  | None => (s, [])
  | Some r =>
      let s0 := set_idleListeners [] (set_playerResource None (mark_done r s)) in
      let '(s1, e1, ks) := foldl run_listener (s0, [PlayerIdle r], []) (idleListeners s) in
      foldl resume_play (s1, e1) ks
  end.

(** Lines 214-219: the ['error'] listener every spawned child carries.
    Node emits ['error'] on a child that could not be started, on the tick
    after [spawn] returned, and once only.  The event is delivered as an
    input of its own and is taken only while the child has neither been
    signalled nor been played to its end, after which the child counts as
    over; on any other child it is no event Node would emit, and nothing
    runs. *)
Definition proc_error (h : Handle) (s : State) : State * list Event :=
  if decide (h ∈ active_handles s) then
    (set_currentProcess None (set_isPlaying false (mark_done h s)),
     [Console LFfmpegError; PlayerStop])
  else (s, []).

(** ** [POST /upload] (lines 136-161) and the registry *)

(** The uploaded part as multer delivers it; [f_ext] is what
    [path.extname(file.originalname)] returns. *)
Record UploadedFile := mkFile { f_ext : string; f_buffer : list Byte.byte }.

(** JavaScript's [v || dflt] on an optional string: [undefined] and the
    empty string are falsy. *)
Definition js_or (v : option string) (dflt : string) : string :=
  match v with
  | Some s => if decide (s = "") then dflt else s
  | None => dflt
  end.

Definition open_clients (s : State) : list nat :=
  filter (fun i => default false (wsClients s !! i)) (seq 0 (length (wsClients s))).

(** Lines 137-150, up to [await fs.writeFile(filepath, file.buffer)];
    [uuid] is what [crypto.randomUUID()] returns. *)
Definition upload_request (rid : nat) (file : option UploadedFile)
    (name emoji : option string) (uuid : string) : list Event + UploadK :=
  match file, name with
  | Some f, Some n =>
      if decide (n = "") then
        inl [Respond rid (ResJson 400 (BError "Missing file or name"))]
      else
        let fname := uuid +:+ js_or (Some (f_ext f)) ".mp3" in
        inr (mkUploadK rid n emoji fname (path_join SOUND_DIR fname) (f_buffer f))
  | _, _ => inl [Respond rid (ResJson 400 (BError "Missing file or name"))]
  end.

(** Lines 41-43.  [saveMap] serialises the map when it is called and
    writes the text straight to [MAP_FILE]; the write settles later. *)
Definition saveMap (s : State) : Content := Json (soundMap s).

Definition saveMap_settled (data : Content) (w : WriteOutcome) (s : State) : State :=
  set_disk (fs_writeFile MAP_FILE data w (disk s)) s.

(** Lines 117-124. *)
Definition broadcastSoundMap (s : State) : Event :=
  Broadcast (open_clients s) (soundMap s).

(** Lines 150-157, resumed when the sound file's write settles: on success
    the entry is put in the map and [saveMap] is called.  The assignment of
    line 156 is an insertion for every name: under [__proto__] it sets the
    prototype, which is what that key of the map stands for. *)
Definition upload_after_write (u : UploadK) (w : WriteOutcome) (s : State)
    : State * list Event * option Suspended :=
  let s1 := set_disk (fs_writeFile (u_filepath u) (Raw (u_buffer u)) w (disk s)) s in
  let ev := FsWrite (u_filepath u) (Raw (u_buffer u)) w in
  if write_ok w then
    let s2 := set_soundMap
                (<[u_name u := mkClip (u_filename u) (js_or (u_emoji u) "")]> (soundMap s1))
                s1 in
    (s2, [ev], Some (AwaitMapWrite u (saveMap s2)))
  else
    (s1, [ev; Console LSaveFileFailed;
          Respond (u_rid u) (ResJson 500 (BError "Failed to save file"))], None).

(** Lines 157-160, resumed when the snapshot write settles.  Nothing
    catches a failed write: the promise of [saveMap] rejects, and so does
    the handler's, before the broadcast and the redirect. *)
Definition upload_after_save (u : UploadK) (data : Content) (w : WriteOutcome)
    (s : State) : State * list Event :=
  let s1 := saveMap_settled data w s in
  let ev := FsWrite MAP_FILE data w in
  if write_ok w then
    (s1, [ev; broadcastSoundMap s1; Respond (u_rid u) (ResRedirect "/")])
  else (s1, [ev; Rejected (u_rid u) MAP_FILE]).

(** ** The event loop *)

Record Config := mkConfig {
  st : State;
  waiting : list Suspended;   (* handlers awaiting the file system *)
  nextReq : nat               (* requests received so far *)
}.

Inductive Input :=
| ReqPlay (sound : string)
| ReqStop
| ReqUpload (file : option UploadedFile) (name emoji : option string) (uuid : string)
| ReqMappings
| IoDone (i : nat) (w : WriteOutcome)   (* the I/O of [waiting !! i] settles *)
| Idle                                  (* [AudioPlayerStatus.Idle] *)
| ProcError (h : Handle)                (* ['error'] on child [h] *)
| WsConnect
| WsClose (i : nat)
| ClientReady (guild channel entered : bool).

(** Lines 30-39 and 64-67: the state once the module has been loaded. *)
Definition boot (d : Disk) : Config :=
  mkConfig (mkState (loadMap d) d false None false None [] [] [] true) [] 0.

(** Lines 69-100.  The listener is registered with [client.once]: it runs
    on the first ['ready'] event and is gone afterwards. *)
Definition client_ready (guild channel entered : bool) (s : State)
    : State * list Event :=
  if readyPending s then
    if guild && channel then
      (set_readyPending false (set_connection true s), [Console (LReady entered)])
    else (set_readyPending false s, [Console (LReady false)])
  else (s, []).

Definition resume (x : Suspended) (w : WriteOutcome) (s : State)
    : State * list Event * option Suspended :=
  match x with
  | AwaitStat k => let '(s', e) := play_after_stat k s in (s', e, None)
  | AwaitSoundWrite u => upload_after_write u w s
  | AwaitMapWrite u data => let '(s', e) := upload_after_save u data w s in (s', e, None)
  end.

Definition step (i : Input) (c : Config) : Config * list Event :=
  let rid := nextReq c in
  match i with
  | ReqPlay sound =>
      match play_request rid sound (st c) with
      | inl e => (mkConfig (st c) (waiting c) (S rid), e)
      | inr k => (mkConfig (st c) (waiting c ++ [AwaitStat k]) (S rid), [])
      end
  | ReqStop =>
      let '(s, e) := stop_request rid (st c) in (mkConfig s (waiting c) (S rid), e)
  | ReqUpload file name emoji uuid =>
      match upload_request rid file name emoji uuid with
      | inl e => (mkConfig (st c) (waiting c) (S rid), e)
      | inr u => (mkConfig (st c) (waiting c ++ [AwaitSoundWrite u]) (S rid), [])
      end
  | ReqMappings =>
      (mkConfig (st c) (waiting c) (S rid),
       [Respond rid (ResJson 200 (BSounds (soundMap (st c))))])
  | IoDone n w =>
      match waiting c !! n with
      | None => (c, [])
      | Some x =>
          let '(s, e, again) := resume x w (st c) in
          (mkConfig s (delete n (waiting c) ++ option_list again) (nextReq c), e)
      end
  | Idle =>
      let '(s, e) := player_idle (st c) in (mkConfig s (waiting c) (nextReq c), e)
  | ProcError h =>
      let '(s, e) := proc_error h (st c) in (mkConfig s (waiting c) (nextReq c), e)
  | WsConnect =>
      (mkConfig (set_wsClients (wsClients (st c) ++ [true]) (st c)) (waiting c) (nextReq c),
       [Console LWsConnected; WsSend (length (wsClients (st c))) (soundMap (st c))])
  | WsClose n =>
      (mkConfig (set_wsClients (<[n := false]> (wsClients (st c))) (st c))
                (waiting c) (nextReq c),
       [Console LWsDisconnected])
  | ClientReady guild channel entered =>
      let '(s, e) := client_ready guild channel entered (st c) in
      (mkConfig s (waiting c) (nextReq c), e)
  end.

Definition run_step (acc : Config * list Event) (i : Input) : Config * list Event :=
  let '(c, t) := acc in
  let '(c', e) := step i c in (c', t ++ e).

Definition run (ins : list Input) (c : Config) : Config * list Event :=
  foldl run_step (c, []) ins.

(** ** Calls that run to completion

    A client that waits for each response before sending the next request
    sees the handlers one at a time: the file-system operation a handler
    awaits settles, and the Idle event a preempting [/play] awaits arrives,
    before anything else is delivered. *)

Definition is_OnStopped (l : Listener) : bool :=
  match l with OnStopped _ => true | OnFinished _ => false end.

Definition is_OnFinished (l : Listener) : bool :=
  match l with OnFinished _ => true | OnStopped _ => false end.

(** A [/play] handler is waiting at line 199 for the player to turn Idle. *)
Definition awaiting_idle (s : State) : bool := existsb is_OnStopped (idleListeners s).

(** No handler is suspended: every request so far has been dealt with. *)
Definition quiescent (c : Config) : bool :=
  match waiting c with
  | [] => negb (awaiting_idle (st c))
  | _ :: _ => false
  end.

Definition play_call (sound : string) (c : Config) : Config * list Event :=
  let '(c1, e1) := run [ReqPlay sound; IoDone 0 Written] c in
  if awaiting_idle (st c1) then
    let '(c2, e2) := step Idle c1 in (c2, e1 ++ e2)
  else (c1, e1).

Definition stop_call (c : Config) : Config * list Event := step ReqStop c.

Definition upload_call (file : option UploadedFile) (name emoji : option string)
    (uuid : string) (w1 w2 : WriteOutcome) (c : Config) : Config * list Event :=
  run [ReqUpload file name emoji uuid; IoDone 0 w1; IoDone 0 w2] c.

(** ** Serialized executions

    Requests are serialized when a new one is only delivered once no
    handler is suspended.  Between and during requests the player may turn
    Idle, pending I/O may settle, and WebSocket and Discord events may
    arrive.  Child-process errors are kept out of these executions. *)

Definition serial (i : Input) (c : Config) : bool :=
  match i with
  | ReqPlay _ | ReqStop | ReqUpload _ _ _ _ | ReqMappings => quiescent c
  | ProcError _ => false
  | IoDone _ _ | Idle | WsConnect | WsClose _ | ClientReady _ _ _ => true
  end.

Inductive SReach : Config -> list Event -> Prop :=
| SReach_boot (d : Disk) : SReach (boot d) []
| SReach_step (c : Config) (t : list Event) (i : Input) :
    SReach c t -> serial i c = true ->
    SReach (step i c).1 (t ++ (step i c).2).

(** ** Unrestricted executions *)

(** Executions with no restriction on what arrives when. *)
Inductive Reach : Config -> list Event -> Prop :=
| Reach_boot (d : Disk) : Reach (boot d) []
| Reach_step (c : Config) (t : list Event) (i : Input) :
    Reach c t -> Reach (step i c).1 (t ++ (step i c).2).



(** ** Notions used in the proofs *)

Fixpoint serial_run (ins : list Input) (c : Config) : bool :=
  match ins with
  | [] => true
  | i :: rest => serial i c && serial_run rest (step i c).1
  end.

(** At most one decoder is live after every single event of a trace. *)
Fixpoint live_ok (l : list Handle) (t : list Event) : Prop :=
  length l <= 1 /\
  match t with
  | [] => True
  | e :: t' => live_ok (live_step l e) t'
  end.

(** The continuations and the log lines an Idle emission produces. *)
Definition stopped_ks (L : list Listener) : list PlayK :=
  omap (fun l => match l with OnStopped k => Some k | OnFinished _ => None end) L.

Definition finished_logs (L : list Listener) : list Event :=
  omap (fun l => match l with OnFinished f => Some (Console (LFinished f))
                            | OnStopped _ => None end) L.

Definition clear_slot (s : State) : State :=
  set_isPlaying false (set_currentProcess None s).

(** What serialized executions maintain. *)
Record Inv (c : Config) : Prop := mkInv {
  inv_current : forall h, currentProcess (st c) = Some h ->
      isPlaying (st c) = true /\ playerResource (st c) = Some h /\
      (exists p, procs (st c) !! h = Some p /\ proc_active p = true) /\
      existsb is_OnFinished (idleListeners (st c)) = true;
  inv_active : forall h p, procs (st c) !! h = Some p -> proc_active p = true ->
      currentProcess (st c) = Some h;
  inv_inflight :
      length (waiting c) + length (stopped_ks (idleListeners (st c))) <= 1;
  inv_awaiting : awaiting_idle (st c) = true -> currentProcess (st c) = None;
  inv_playing : isPlaying (st c) = true ->
      is_Some (currentProcess (st c)) \/ awaiting_idle (st c) = true
}.

(** Events that neither start nor end a decoder. *)
Definition quiet (e : Event) : Prop :=
  match e with
  | Spawn _ _ | Kill _ | PlayerIdle _ => False
  | _ => True
  end.

(** The registry, the disk and the WebSocket clients are outside the
    playback slot. *)
Definition same_slot (s s' : State) : Prop :=
  currentProcess s' = currentProcess s /\ isPlaying s' = isPlaying s /\
  playerResource s' = playerResource s /\ idleListeners s' = idleListeners s /\
  procs s' = procs s.

(** The state of a [/play] handler that has signalled child [h] and now
    waits at line 199. *)
Definition stopped_for (k : PlayK) (h : Handle) (s : State) : State :=
  set_idleListeners (idleListeners s ++ [OnStopped k]) (set_currentProcess None (kill h s)).

(** The state a preempting play resumes in: the old child is signalled and
    marked done, the player is Idle and every listener has run. *)
Definition preempted (h : Handle) (s : State) : State :=
  clear_slot (set_idleListeners [] (set_playerResource None
    (mark_done h (set_currentProcess None (kill h s))))).


(** ** A small installation, used to run the model *)

Definition siren : Clip := mkClip "siren.mp3" "".
Definition horn : Clip := mkClip "horn.mp3" "!".

Definition demo_map : SoundMap := <["siren" := siren]> (<["horn" := horn]> ∅).

Definition demo_disk : Disk :=
  <[MAP_FILE := Whole (Json demo_map)]>
    (<["sounds/siren.mp3" := Whole (Raw [])]>
       (<["sounds/horn.mp3" := Whole (Raw [])]> ∅)).

(** The server after start-up on that disk, once the bot has joined. *)
Definition demo : Config := (run [ClientReady true true true] (boot demo_disk)).1.

Definition demo_trace : list Event := (run [ClientReady true true true] (boot demo_disk)).2.

(** [horn] preempts [siren]: two plays, and the Idle event the second one
    waits for. *)
Definition demo_preempted : Config * list Event :=
  run [ReqPlay "siren"; IoDone 0 Written; ReqPlay "horn"; IoDone 0 Written; Idle] demo.

(** Two plays arrive while [siren] is playing, before either is resumed. *)
Definition demo_overlap : Config * list Event :=
  run [ReqPlay "siren"; IoDone 0 Written;
       ReqPlay "horn"; ReqPlay "siren"; IoDone 0 Written; IoDone 0 Written;
       Idle] demo.

(** An upload of [bell] whose snapshot write is cut short right after the
    snapshot file was opened. *)
Definition demo_torn : Config * list Event :=
  upload_call (Some (mkFile ".wav" [])) (Some "bell") None "0000"
    Written (FailedTorn 0) demo.


(** Two uploads overlap, with one subscriber connected: [bell]'s snapshot
    write is still pending when [gong] is put in the map, and then
    completes. *)
Definition demo_two_uploads : Config * list Event :=
  run [WsConnect;
       ReqUpload (Some (mkFile ".wav" [])) (Some "bell") None "0000"; IoDone 0 Written;
       ReqUpload (Some (mkFile ".wav" [])) (Some "gong") None "0001"; IoDone 1 Written;
       IoDone 0 Written] demo.

(** The registry lists both clips but their files are gone from the disk. *)
Definition demo_orphan_disk : Disk := <[MAP_FILE := Whole (Json demo_map)]> ∅.

(** A [/play] for [siren] waiting for its [fs.stat]: on the orphaned disk,
    and on the full disk before the bot has joined. *)
Definition demo_orphan_play : Config :=
  (run [ClientReady true true true; ReqPlay "siren"] (boot demo_orphan_disk)).1.

Definition demo_offline_play : Config := (run [ReqPlay "siren"] (boot demo_disk)).1.

(** A serialized session: two plays, the second preempting the first, the
    second clip playing out, then a stop. *)
Definition demo_session : list Input :=
  [ClientReady true true true; ReqPlay "siren"; IoDone 0 Written;
   ReqPlay "horn"; IoDone 0 Written; Idle; Idle; ReqStop].



(** ** Notions used in the statements *)

(** The locals of the upload handler for a request with a file and a name. *)
Definition upload_k (c : Config) (f : UploadedFile) (n : string)
    (emoji : option string) (uuid : string) : UploadK :=
  let fname := uuid +:+ js_or (Some (f_ext f)) ".mp3" in
  mkUploadK (nextReq c) n emoji fname (path_join SOUND_DIR fname) (f_buffer f).

(** The slot is idle: no current process and nothing marked as playing. *)
Definition slot_idle (s : State) : Prop :=
  currentProcess s = None /\ isPlaying s = false.


(** What the uploader is told: the response, or the rejection. *)
Definition answer_of (ev : Event) : option Event :=
  match ev with
  | Respond _ _ | Rejected _ _ => Some ev
  | _ => None
  end.

(** The input settles the write of a suspended upload. *)
Definition settles_write (i : Input) (c : Config) : bool :=
  match i with
  | IoDone n _ =>
      match waiting c !! n with
      | Some (AwaitSoundWrite _) | Some (AwaitMapWrite _ _) => true
      | _ => false
      end
  | _ => false
  end.

(** ** Notions used for the rest of the handlers *)

(** The requests a trace answers, by a response or by a rejection. *)
Definition answered (t : list Event) : list nat :=
  omap (fun e => match e with
                 | Respond rid _ | Rejected rid _ => Some rid
                 | _ => None
                 end) t.

(** The request a suspended handler belongs to. *)
Definition susp_rid (x : Suspended) : nat :=
  match x with
  | AwaitStat k => k_rid k
  | AwaitSoundWrite u | AwaitMapWrite u _ => u_rid u
  end.

(** The requests still suspended: at the file system, or at line 199. *)
Definition pending (c : Config) : list nat :=
  map susp_rid (waiting c) ++ map k_rid (stopped_ks (idleListeners (st c))).

(** The children a trace signals, and the ones it spawns. *)
Definition kills (t : list Event) : list Handle :=
  omap (fun e => match e with Kill h => Some h | _ => None end) t.

Definition spawned (t : list Event) : list Handle :=
  omap (fun e => match e with Spawn h _ => Some h | _ => None end) t.

(** The plays a trace answers with [{ status: 'Playing' }]. *)
Definition playing (t : list Event) : list nat :=
  omap (fun e => match e with
                 | Respond rid (ResJson 200 (BStatus "Playing")) => Some rid
                 | _ => None
                 end) t.

(** The ['ready'] event finds a guild and its voice channel. *)
Definition joins (i : Input) : bool :=
  match i with
  | ClientReady true true _ => true
  | _ => false
  end.

(** Before the bot has joined: no connection, and nothing ever started. *)
Definition cold (c : Config) : Prop :=
  connection (st c) = false /\ procs (st c) = [] /\
  currentProcess (st c) = None /\ playerResource (st c) = None /\
  idleListeners (st c) = [].

(** The refusal of line 187. *)
Definition not_connected (e : Event) : Prop :=
  exists rid, e = Respond rid (ResJson 500 (BError "Bot not connected")).

(** What the playback handlers have no business with. *)
Definition outside (s : State) : SoundMap * Disk * bool * list bool :=
  (soundMap s, disk s, connection s, wsClients s).


(** The children and the trace agree: the children spawned are the ones in
    [procs], one for each play answered [Playing]; the signalled ones are
    the ones with [killed] set, each signalled once; and the current
    process, when there is one, has not been signalled. *)
Definition signalled_ok (s : State) (t : list Event) : Prop :=
  spawned t = seq 0 (length (procs s)) /\
  length (playing t) = length (procs s) /\
  NoDup (kills t) /\
  (forall h, h ∈ kills t <-> killed h s = true) /\
  (forall h, currentProcess s = Some h -> h < length (procs s) /\ killed h s = false).

(** What goes out on the WebSocket: the recipients and the registry sent. *)
Definition ws_message (e : Event) : option (list nat * SoundMap) :=
  match e with
  | WsSend i m => Some ([i], m)
  | Broadcast l m => Some (l, m)
  | _ => None
  end.

(** An upload of [bell] that goes through, and the server after its one
    subscriber has gone. *)
Definition demo_bell_upload : list Input :=
  [ReqUpload (Some (mkFile ".wav" [])) (Some "bell") None "0000";
   IoDone 0 Written; IoDone 0 Written].

Definition demo_closed : Config := (run [WsConnect; WsClose 0] demo).1.

(** The plays answered [Playing] since the player last turned Idle. *)
Definition count_play (n : nat) (e : Event) : nat :=
  match e with
  | PlayerIdle _ => 0
  | Respond _ (ResJson 200 (BStatus "Playing")) => S n
  | _ => n
  end.

Definition open_plays (t : list Event) : nat := foldl count_play 0 t.

(** The finished-playing listeners registered on the player. *)
Definition finished_listeners (s : State) : nat :=
  length (finished_logs (idleListeners s)).

(** Two plays with a stop in between, and no Idle event so far. *)
Definition demo_stop_between : Config * list Event :=
  run [ReqPlay "siren"; IoDone 0 Written; ReqStop; ReqPlay "horn"; IoDone 0 Written] demo.

(** [horn] is requested while [siren] plays and waits at line 199 for the
    player to turn Idle. *)
Definition demo_waiting : Config :=
  (run [ReqPlay "siren"; IoDone 0 Written; ReqPlay "horn"; IoDone 0 Written] demo).1.

(** The registry is backed by the disk: every entry's file is there, every
    play waiting for its [fs.stat] will find its file, and every upload
    about to write its sound file writes it where its entry will point. *)
Definition susp_backed (d : Disk) (x : Suspended) : Prop :=
  match x with
  | AwaitStat k => is_Some (d !! k_soundPath k)
  | AwaitSoundWrite u => u_filepath u = path_join SOUND_DIR (u_filename u)
  | AwaitMapWrite _ _ => True
  end.

Definition backed (c : Config) : Prop :=
  (forall n clip, soundMap (st c) !! n = Some clip ->
     is_Some (disk (st c) !! path_join SOUND_DIR (filename clip))) /\
  Forall (susp_backed (disk (st c))) (waiting c).

(** The refusal of line 184. *)
Definition file_missing (e : Event) : Prop :=
  exists rid f,
    e = Respond rid (ResJson 404 (BError ("File '" +:+ f +:+ "' does not exist"))).
(** * Proofs *)

(** Closed facts about the example installation are settled by running
    the model. *)
Ltac by_running := vm_compute; reflexivity.

(** What the serialised object shows. *)
Lemma listed_lookup_ne (m : SoundMap) n : n <> "__proto__" -> listed m !! n = m !! n.
Proof. intros Hn. unfold listed. by rewrite lookup_delete_ne. Qed.

Lemma listed_lookup_proto (m : SoundMap) : listed m !! "__proto__" = None.
Proof. unfold listed. apply lookup_delete_eq. Qed.

Lemma listed_lookup_Some (m : SoundMap) n c :
  listed m !! n = Some c <-> n <> "__proto__" /\ m !! n = Some c.
Proof.
  destruct (decide (n = "__proto__")) as [->|Hn].
  - rewrite listed_lookup_proto. split; [done|]. by intros [? _].
  - rewrite listed_lookup_ne by done. tauto.
Qed.

Lemma listed_idemp (m : SoundMap) : listed (listed m) = listed m.
Proof. unfold listed. apply delete_id, lookup_delete_eq. Qed.

(** What a [/play] answers before it ever reaches [fs.stat]. *)
Lemma play_request_inl rid sound s e :
  play_request rid sound s = inl e ->
  soundMap s !! sound = None /\
  ((inherited (soundMap s) sound = true /\
    e = [Console LPlayError;
         Respond rid (ResJson 500 (BError "Internal server error"))]) \/
   (inherited (soundMap s) sound = false /\
    e = [Respond rid (ResJson 404 (BError ("Sound key '" +:+ sound +:+ "' not found")))])).
Proof.
  unfold play_request. destruct (soundMap s !! sound); [done|].
  destruct (inherited (soundMap s) sound); intros [= <-]; auto.
Qed.

Ltac case_read c a :=
  destruct (soundMap (st c) !! a); [|destruct (inherited (soundMap (st c)) a)].

Lemma play_request_inr rid sound s k :
  play_request rid sound s = inr k ->
  exists d, soundMap s !! sound = Some d /\
            k = mkPlayK rid sound d (path_join SOUND_DIR (filename d)).
Proof.
  unfold play_request. destruct (soundMap s !! sound) as [d|]; [|by destruct (inherited _ _)].
  intros [= <-]. eauto.
Qed.

(** ** Traces and the live set *)

Lemma live_after_app l t1 t2 :
  live_after l (t1 ++ t2) = live_after (live_after l t1) t2.
Proof. unfold live_after. apply foldl_app. Qed.

Lemma live_ok_length l t : live_ok l t -> length l <= 1.
Proof. destruct t; simpl; tauto. Qed.

Lemma live_ok_app l t1 t2 :
  live_ok l (t1 ++ t2) <-> live_ok l t1 /\ live_ok (live_after l t1) t2.
Proof.
  revert l. induction t1 as [|e t1 IH]; intros l; simpl.
  - split; [intros H; split; [split; [eapply live_ok_length; eauto | trivial] | exact H]
           | intros [_ H]; exact H].
  - rewrite IH. tauto.
Qed.

Lemma live_after_quiet l t : Forall quiet t -> live_after l t = l.
Proof.
  induction 1 as [|e t He _ IH]; [reflexivity|].
  change (live_after l (e :: t)) with (live_after (live_step l e) t).
  destruct e; simpl in *; try contradiction; exact IH.
Qed.

Lemma live_ok_quiet l t : length l <= 1 -> Forall quiet t -> live_ok l t.
Proof.
  intros Hl. induction 1 as [|e t He _ IH]; simpl; [tauto|].
  split; [exact Hl|]. destruct e; simpl in *; try contradiction; exact IH.
Qed.


Lemma finished_logs_quiet L : Forall quiet (finished_logs L).
Proof.
  induction L as [|[f|k] L IH]; simpl; auto.
  constructor; simpl; auto.
Qed.

(** ** The Idle emission *)

Lemma run_listeners_spec L : forall s e ks,
  foldl run_listener (s, e, ks) L =
  (if existsb is_OnFinished L then clear_slot s else s,
   e ++ finished_logs L, ks ++ stopped_ks L).
Proof.
  induction L as [|[f|k] L IH]; intros s e ks; simpl.
  - by rewrite !app_nil_r.
  - rewrite IH. fold (clear_slot s).
    destruct (existsb is_OnFinished L); by rewrite <- ?app_assoc.
  - rewrite IH. by rewrite <- !app_assoc.
Qed.

Lemma awaiting_idle_stopped s :
  awaiting_idle s = false <-> stopped_ks (idleListeners s) = [].
Proof.
  unfold awaiting_idle. induction (idleListeners s) as [|[f|k] L IH]; simpl.
  - tauto.
  - exact IH.
  - split; discriminate.
Qed.

Lemma stopped_ks_app L1 L2 : stopped_ks (L1 ++ L2) = stopped_ks L1 ++ stopped_ks L2.
Proof. unfold stopped_ks. apply omap_app. Qed.

(** ** Preservation of the invariant *)

Lemma lookup_alter_active (f : Proc -> Proc) (ps : list Proc) h h' p :
  (forall q, proc_active (f q) = false) ->
  alter f h ps !! h' = Some p -> proc_active p = true ->
  h' <> h /\ ps !! h' = Some p.
Proof.
  intros Hf Hl Ha. destruct (decide (h' = h)) as [->|Hne].
  - rewrite list_lookup_alter_eq in Hl.
    destruct (ps !! h) as [q|]; simpl in Hl; [|discriminate].
    injection Hl as <-. rewrite Hf in Ha. discriminate.
  - rewrite list_lookup_alter_ne in Hl by congruence. auto.
Qed.

Lemma filter_ne_single (h : Handle) : filter (fun x => x <> h) [h] = [].
Proof. rewrite filter_cons. by rewrite decide_False by tauto. Qed.

Lemma stop_request_inv c :
  Inv c ->
  let s' := (stop_request (nextReq c) (st c)).1 in
  let e := (stop_request (nextReq c) (st c)).2 in
  Inv (mkConfig s' (waiting c) (S (nextReq c))) /\
  live_ok (option_list (currentProcess (st c))) e /\
  live_after (option_list (currentProcess (st c))) e = option_list (currentProcess s').
Proof.
  intros [Hc Ha Hf Hw Hp].
  destruct c as [[m d conn cp ip pr L ps ws rp] w n]; simpl in *.
  unfold stop_request; simpl. destruct cp as [h|]; simpl.
  - split; [|split].
    + constructor; simpl; try done.
      * intros h' p Hl Hact.
        apply lookup_alter_active in Hl as [Hne Hl]; [|by intros [? [] ?]|done].
        specialize (Ha _ _ Hl Hact). congruence.
    + simpl. rewrite filter_ne_single. simpl. repeat split; lia.
    + unfold live_after; simpl. by rewrite filter_ne_single.
  - split; [|split].
    + constructor; simpl; try done.
    + simpl. repeat split; lia.
    + reflexivity.
Qed.

Lemma play_start_inv k s n :
  currentProcess s = None ->
  (forall h p, procs s !! h = Some p -> proc_active p = false) ->
  stopped_ks (idleListeners s) = [] ->
  Inv (mkConfig (play_start k s).1 [] n) /\
  live_ok [] (play_start k s).2 /\
  live_after [] (play_start k s).2 = [length (procs s)] /\
  currentProcess (play_start k s).1 = Some (length (procs s)).
Proof.
  intros Hcp Hin Hst.
  destruct s as [m d conn cp ip pr L ps ws rp]; simpl in *. subst cp.
  split; [|split; [|split]].
  - constructor; simpl.
    + intros h [= <-]. split; [done|]. split; [done|]. split.
      * eexists. split; [apply list_lookup_middle; reflexivity|done].
      * rewrite existsb_app. simpl. by rewrite orb_true_r.
    + intros h p Hl Hact. f_equal.
      destruct (decide (h < length ps)) as [Hlt|Hge].
      * rewrite lookup_app_l in Hl by done. rewrite (Hin _ _ Hl) in Hact. done.
      * apply lookup_lt_Some in Hl. rewrite length_app in Hl. simpl in Hl. lia.
    + rewrite stopped_ks_app, Hst. simpl. lia.
    + unfold awaiting_idle; simpl. intros Hex.
      assert (H0 : awaiting_idle (mkState m d conn None ip pr (L ++ [OnFinished (filename (k_soundData k))]) ps ws rp) = false).
      { apply awaiting_idle_stopped. simpl. rewrite stopped_ks_app, Hst. done. }
      unfold awaiting_idle in H0; simpl in H0. congruence.
    + intros _. left. eauto.
  - simpl. repeat split; lia.
  - reflexivity.
  - reflexivity.
Qed.

Lemma no_active_without_current c :
  Inv c -> currentProcess (st c) = None ->
  forall h p, procs (st c) !! h = Some p -> proc_active p = false.
Proof.
  intros HI Hcp h p Hl. destruct (proc_active p) eqn:Hact; [|done].
  pose proof (inv_active _ HI _ _ Hl Hact) as H. congruence.
Qed.

Lemma play_after_stat_inv k s n :
  Inv (mkConfig s [AwaitStat k] n) ->
  Inv (mkConfig (play_after_stat k s).1 [] n) /\
  live_ok (option_list (currentProcess s)) (play_after_stat k s).2 /\
  live_after (option_list (currentProcess s)) (play_after_stat k s).2
    = option_list (currentProcess (play_after_stat k s).1).
Proof.
  intros HI.
  assert (Hst : stopped_ks (idleListeners s) = []).
  { pose proof (inv_inflight _ HI) as H; simpl in H.
    destruct (stopped_ks (idleListeners s)); [done | simpl in H; lia]. }
  assert (Haw : awaiting_idle s = false) by by apply awaiting_idle_stopped.
  assert (HI0 : Inv (mkConfig s [] n)).
  { destruct HI; constructor; simpl in *; auto. rewrite Hst; simpl; lia. }
  assert (Hlen : length (option_list (currentProcess s)) <= 1).
  { destruct (currentProcess s); simpl; lia. }
  unfold play_after_stat.
  destruct (disk s !! k_soundPath k) as [fd|]; cbn [fst snd];
    [|split; [done|split; [by apply live_ok_quiet; [|repeat constructor]|done]]].
  destruct (connection s); cbn [fst snd negb];
    [|split; [done|split; [by apply live_ok_quiet; [|repeat constructor]|done]]].
  destruct (isPlaying s) eqn:Hip.
  - (* a session is active: preempt *)
    destruct (inv_playing _ HI0 Hip) as [[h Hcp]|Habs]; simpl in *; [|congruence].
    destruct (inv_current _ HI0 _ Hcp) as (_ & Hpr & (p & Hp & Hact) & Hfin); simpl in *.
    unfold stopCurrentPlayback. rewrite Hcp.
    assert (Hk : killed h s = false).
    { unfold killed. rewrite Hp. simpl. unfold proc_active in Hact.
      destruct (p_killed p); [done|done]. }
    rewrite Hk. simpl. rewrite Hpr. simpl.
    split; [|split].
    + destruct s as [m d conn cp ip pr L ps ws rp]; simpl in *. subst.
      constructor; simpl; try done.
      * intros h' p' Hl Hact'.
        apply lookup_alter_active in Hl as [Hne Hl]; [|by intros [? [] ?]|done].
        pose proof (inv_active _ HI0 _ _ Hl Hact') as H; simpl in H. congruence.
      * rewrite stopped_ks_app, Hst. simpl. lia.
      * intros _. right. unfold awaiting_idle; simpl.
        rewrite existsb_app. simpl. by rewrite orb_true_r.
    + simpl. rewrite filter_ne_single. simpl. repeat split; lia.
    + unfold live_after; simpl. by rewrite filter_ne_single.
  - (* nothing is playing: start at once *)
    assert (Hcp : currentProcess s = None).
    { destruct (currentProcess s) as [h|] eqn:E; [|done].
      destruct (inv_current _ HI0 _ E) as [H _]; simpl in H. congruence. }
    destruct (play_start_inv k s n Hcp (no_active_without_current _ HI0 Hcp) Hst)
      as (H1 & H2 & H3 & H4).
    destruct (play_start k s) as [s2 e2] eqn:Eps; simpl in *.
    rewrite Hcp, H4; simpl. split; [done|].
    split; [split; [lia | done] | exact H3].
Qed.


Lemma player_idle_spec s r :
  playerResource s = Some r ->
  player_idle s =
    foldl resume_play
      ((if existsb is_OnFinished (idleListeners s)
        then clear_slot (set_idleListeners [] (set_playerResource None (mark_done r s)))
        else set_idleListeners [] (set_playerResource None (mark_done r s))),
       PlayerIdle r :: finished_logs (idleListeners s))
      (stopped_ks (idleListeners s)).
Proof.
  intros Hr. unfold player_idle. rewrite Hr.
  rewrite run_listeners_spec. reflexivity.
Qed.

Lemma resume_play_one s e k :
  foldl resume_play (s, e) [k] = ((play_start k s).1, e ++ (play_start k s).2).
Proof. cbn [foldl]. unfold resume_play. by destruct (play_start k s). Qed.

Lemma player_idle_inv c :
  Inv c ->
  Inv (mkConfig (player_idle (st c)).1 (waiting c) (nextReq c)) /\
  live_ok (option_list (currentProcess (st c))) (player_idle (st c)).2 /\
  live_after (option_list (currentProcess (st c))) (player_idle (st c)).2
    = option_list (currentProcess (player_idle (st c)).1).
Proof.
  intros HI. destruct c as [s w n]; cbn [st waiting nextReq] in *.
  assert (Hlen : length (option_list (currentProcess s)) <= 1).
  { destruct (currentProcess s); simpl; lia. }
  destruct (playerResource s) as [r|] eqn:Hr.
  2:{ unfold player_idle. rewrite Hr. cbn [fst snd].
      split; [done|]. split; [by apply live_ok_quiet|done]. }
  rewrite (player_idle_spec _ _ Hr).
  pose proof (inv_inflight _ HI) as Hfl; cbn [st waiting] in Hfl.
  destruct (stopped_ks (idleListeners s)) as [|k [|k' ks]] eqn:Hst;
    [| |simpl in Hfl; lia].
  - (* no handler waits for this Idle *)
    cbn [foldl fst snd].
    assert (Haw : awaiting_idle s = false) by by apply awaiting_idle_stopped.
    assert (Hcase : (currentProcess s = Some r /\ existsb is_OnFinished (idleListeners s) = true)
                    \/ (currentProcess s = None /\
                        (existsb is_OnFinished (idleListeners s) = true \/ isPlaying s = false))).
    { destruct (currentProcess s) as [h|] eqn:Hcp.
      - left. destruct (inv_current _ HI _ Hcp) as (_ & Hpr & _ & Hfin); simpl in *.
        split; [congruence|done].
      - right. split; [done|]. destruct (isPlaying s) eqn:Hip; [|by right].
        destruct (inv_playing _ HI Hip) as [[h Hh]|Hh]; simpl in *; congruence. }
    assert (Hnoact : forall h p,
      alter (fun p => mkProc (p_input p) (p_killed p) true) r (procs s) !! h = Some p ->
      proc_active p = false).
    { intros h p Hl. destruct (proc_active p) eqn:Hact; [|done].
      apply lookup_alter_active in Hl as [Hne Hl];
        [|by intros [? ? ?]; unfold proc_active; simpl; rewrite andb_false_r|done].
      pose proof (inv_active _ HI _ _ Hl Hact) as Hcp; simpl in Hcp.
      destruct (inv_current _ HI _ Hcp) as (_ & Hpr & _); simpl in *. congruence. }
    set (s1 := if existsb is_OnFinished (idleListeners s)
               then clear_slot (set_idleListeners [] (set_playerResource None (mark_done r s)))
               else set_idleListeners [] (set_playerResource None (mark_done r s))).
    assert (Hs1 : currentProcess s1 = None /\ idleListeners s1 = [] /\
                  procs s1 = alter (fun p => mkProc (p_input p) (p_killed p) true) r (procs s) /\
                  isPlaying s1 = false).
    { unfold s1. destruct Hcase as [[_ ->]|[Hc [-> | Hip]]]; simpl; auto.
      destruct (existsb is_OnFinished (idleListeners s)); simpl; auto. }
    destruct Hs1 as (Hc1 & Hl1 & Hp1 & Hi1). clearbody s1.
    split; [|split].
    + constructor; cbn [st waiting nextReq].
      * intros h Hh. congruence.
      * intros h p Hl Hact. exfalso. rewrite Hp1 in Hl.
        rewrite (Hnoact _ _ Hl) in Hact. done.
      * rewrite Hl1. simpl in *. lia.
      * intros _. exact Hc1.
      * intros Hip. congruence.
    + split; [done|]. cbn [live_ok].
      apply live_ok_quiet; [|apply finished_logs_quiet].
      destruct (currentProcess s) as [h|]; simpl; [|lia].
      destruct Hcase as [[[= ->] _]|[? _]]; [|done]. rewrite filter_ne_single. simpl; lia.
    + rewrite Hc1. unfold live_after. cbn [foldl].
      fold (live_after (live_step (option_list (currentProcess s)) (PlayerIdle r))
                       (finished_logs (idleListeners s))).
      rewrite live_after_quiet by apply finished_logs_quiet.
      destruct (currentProcess s) as [h|]; simpl; [|done].
      destruct Hcase as [[[= ->] _]|[? _]]; [|done]. by rewrite filter_ne_single.
  - (* a preempting play resumes *)
    assert (Haw : awaiting_idle s = true).
    { destruct (awaiting_idle s) eqn:E; [done|].
      apply awaiting_idle_stopped in E. congruence. }
    pose proof (inv_awaiting _ HI Haw) as Hcp; simpl in Hcp.
    assert (Hw : w = []) by (destruct w; [done | simpl in Hfl; lia]). subst w.
    set (s1 := if existsb is_OnFinished (idleListeners s)
               then clear_slot (set_idleListeners [] (set_playerResource None (mark_done r s)))
               else set_idleListeners [] (set_playerResource None (mark_done r s))).
    assert (Hs1 : currentProcess s1 = None /\ idleListeners s1 = [] /\
                  procs s1 = alter (fun p => mkProc (p_input p) (p_killed p) true) r (procs s)).
    { unfold s1. destruct (existsb is_OnFinished (idleListeners s)); simpl; auto. }
    destruct Hs1 as (Hc1 & Hl1 & Hp1).
    assert (Hna : forall h p, procs s1 !! h = Some p -> proc_active p = false).
    { rewrite Hp1. intros h p Hl. destruct (proc_active p) eqn:Hact; [|done].
      apply lookup_alter_active in Hl as [Hne Hl];
        [|by intros [? ? ?]; unfold proc_active; simpl; rewrite andb_false_r|done].
      pose proof (inv_active _ HI _ _ Hl Hact) as Hcp'; simpl in Hcp'. congruence. }
    assert (Hs : stopped_ks (idleListeners s1) = []) by by rewrite Hl1.
    destruct (play_start_inv k s1 n Hc1 Hna Hs) as (H1 & H2 & H3 & H4).
    rewrite resume_play_one.
    destruct (play_start k s1) as [s2 e2]; cbn [fst snd] in *.
    split; [done|]. rewrite Hcp, H4. cbn [option_list].
    change (PlayerIdle r :: finished_logs (idleListeners s))
      with ([PlayerIdle r] ++ finished_logs (idleListeners s)).
    rewrite <- !app_assoc. split.
    + apply live_ok_app. split; [simpl; repeat split; lia|].
      apply live_ok_app. split; [apply live_ok_quiet; [simpl; lia|apply finished_logs_quiet]|].
      rewrite live_after_quiet by apply finished_logs_quiet. exact H2.
    + rewrite !live_after_app.
      rewrite (live_after_quiet _ (finished_logs _)) by apply finished_logs_quiet.
      exact H3.
Qed.

Lemma inv_frame c s' w' n' :
  Inv c -> same_slot (st c) s' ->
  length w' + length (stopped_ks (idleListeners s')) <= 1 ->
  Inv (mkConfig s' w' n').
Proof.
  intros [Hc Ha Hf Hw Hp] (E1 & E2 & E3 & E4 & E5) Hlen.
  constructor; cbn [st waiting nextReq]; unfold awaiting_idle in *;
    rewrite ?E1, ?E2, ?E3, ?E4, ?E5 in *; auto.
Qed.

Lemma quiescent_spec c :
  quiescent c = true <-> waiting c = [] /\ awaiting_idle (st c) = false.
Proof.
  unfold quiescent. destruct (waiting c); [|split; [done|intros [? _]; done]].
  destruct (awaiting_idle (st c)); simpl; split; try done; intros [_ ?]; done.
Qed.

Lemma upload_after_write_slot u w s :
  same_slot s (upload_after_write u w s).1.1 /\
  Forall quiet (upload_after_write u w s).1.2.
Proof.
  unfold upload_after_write.
  destruct (write_ok w); cbn [fst snd]; (split; [done | repeat constructor]).
Qed.

Lemma upload_after_save_slot u data w s :
  same_slot s (upload_after_save u data w s).1 /\
  Forall quiet (upload_after_save u data w s).2.
Proof.
  unfold upload_after_save.
  destruct (write_ok w); cbn [fst snd]; (split; [done | repeat constructor]).
Qed.

Lemma step_preserves i c :
  Inv c -> serial i c = true ->
  Inv (step i c).1 /\
  live_ok (option_list (currentProcess (st c))) (step i c).2 /\
  live_after (option_list (currentProcess (st c))) (step i c).2
    = option_list (currentProcess (st (step i c).1)).
Proof.
  intros HI Hs.
  assert (Hlen : length (option_list (currentProcess (st c))) <= 1).
  { destruct (currentProcess (st c)); simpl; lia. }
  assert (Hq : quiescent c = true ->
    forall x, length (waiting c ++ x) + length (stopped_ks (idleListeners (st c)))
              = length x).
  { intros [Hw Ha]%quiescent_spec x. apply awaiting_idle_stopped in Ha.
    rewrite Hw, Ha. simpl. lia. }
  destruct i; cbn [serial] in Hs; try discriminate.
  - (* /play arrives *)
    unfold step. destruct (play_request _ _ _) as [e|k] eqn:E; cbn [fst snd st].
    + assert (He : Forall quiet e).
      { apply play_request_inl in E as [_ [[_ ->]|[_ ->]]]; repeat constructor. }
      split; [|split; [by apply live_ok_quiet|by apply live_after_quiet]].
      eapply inv_frame; [exact HI|done|]. rewrite <- (app_nil_r (waiting c)), Hq; simpl; [lia|done].
    + split; [|split; [by apply live_ok_quiet|done]].
      eapply inv_frame; [exact HI|done|]. rewrite Hq; simpl; [lia|done].
  - (* /stop *)
    unfold step. pose proof (stop_request_inv c HI) as H.
    destruct (stop_request (nextReq c) (st c)) as [s e]. exact H.
  - (* /upload arrives *)
    unfold step. destruct (upload_request _ _ _ _ _) as [e|u] eqn:E; cbn [fst snd st].
    + assert (Forall quiet e).
      { unfold upload_request in E.
        destruct file; [destruct name as [nm|]; [destruct (decide (nm = ""))|]|];
          try discriminate; injection E as <-; repeat constructor. }
      split; [|split; [by apply live_ok_quiet|by apply live_after_quiet]].
      eapply inv_frame; [exact HI|done|]. rewrite <- (app_nil_r (waiting c)), Hq; simpl; [lia|done].
    + split; [|split; [by apply live_ok_quiet|done]].
      eapply inv_frame; [exact HI|done|]. rewrite Hq; simpl; [lia|done].
  - (* /mappings *)
    cbn [step fst snd st].
    split; [|split; [by apply live_ok_quiet; [|repeat constructor]|done]].
    eapply inv_frame; [exact HI|done|]. rewrite <- (app_nil_r (waiting c)), Hq; simpl; [lia|done].
  - (* pending I/O settles *)
    unfold step. destruct (waiting c !! i) as [x|] eqn:Hx; cbn [fst snd];
      [|split; [done|split; [by apply live_ok_quiet|done]]].
    pose proof (inv_inflight _ HI) as Hfl.
    assert (Hw : waiting c = [x] /\ i = 0 /\ stopped_ks (idleListeners (st c)) = []).
    { destruct (waiting c) as [|y [|z l]] eqn:Ew; simpl in Hfl.
      - done.
      - destruct i; simpl in Hx; [|done]. injection Hx as ->.
        destruct (stopped_ks _); [done|simpl in Hfl; lia].
      - lia. }
    destruct Hw as (Hw & -> & Hst). rewrite Hw. cbn [delete list_delete app].
    destruct x as [k|u|u data]; cbn [resume].
    + pose proof (play_after_stat_inv k (st c) (nextReq c)) as H.
      destruct c as [s wt n]; cbn [st waiting nextReq] in *. subst wt.
      specialize (H HI). destruct (play_after_stat k s) as [s' e]. exact H.
    + destruct (upload_after_write_slot u w (st c)) as [H1 H2].
      destruct (upload_after_write u w (st c)) as [[s' e] again]; cbn [fst snd st] in *.
      split; [|split; [by apply live_ok_quiet|
                       rewrite live_after_quiet by done; cbn [st];
                       by destruct H1 as [-> _]]].
      eapply inv_frame; [exact HI|done|].
      destruct H1 as (_ & _ & _ & -> & _). rewrite Hst. destruct again; simpl; lia.
    + destruct (upload_after_save_slot u data w (st c)) as [H1 H2].
      destruct (upload_after_save u data w (st c)) as [s' e]; cbn [fst snd st] in *.
      split; [|split; [by apply live_ok_quiet|
                       rewrite live_after_quiet by done; cbn [st];
                       by destruct H1 as [-> _]]].
      eapply inv_frame; [exact HI|done|].
      destruct H1 as (_ & _ & _ & -> & _). rewrite Hst. simpl; lia.
  - (* the player turns Idle *)
    unfold step. pose proof (player_idle_inv c HI) as H.
    destruct (player_idle (st c)) as [s e]. exact H.
  - (* a WebSocket client connects *)
    cbn [step fst snd st].
    split; [|split; [by apply live_ok_quiet; [|repeat constructor]|done]].
    eapply inv_frame; [exact HI|done|]. apply (inv_inflight _ HI).
  - (* a WebSocket client leaves *)
    cbn [step fst snd st].
    split; [|split; [by apply live_ok_quiet; [|repeat constructor]|done]].
    eapply inv_frame; [exact HI|done|]. apply (inv_inflight _ HI).
  - (* the Discord client is ready *)
    unfold step, client_ready.
    destruct (readyPending (st c)), (guild && channel); cbn [fst snd st];
      (split; [|split; [by apply live_ok_quiet; [|repeat constructor]|done]]);
      (eapply inv_frame; [exact HI|done|]); apply (inv_inflight _ HI).
Qed.

Lemma boot_inv d : Inv (boot d).
Proof. constructor; simpl; try done. lia. Qed.

Lemma SReach_inv c t :
  SReach c t ->
  Inv c /\ live_ok [] t /\ live_after [] t = option_list (currentProcess (st c)).
Proof.
  induction 1 as [d|c t i _ (HI & Hok & Hlive) Hs].
  - split; [apply boot_inv|]. split; [simpl; lia|done].
  - destruct (step_preserves i c HI Hs) as (HI' & Hok' & Hlive').
    split; [done|]. split.
    + apply live_ok_app. rewrite Hlive. done.
    + rewrite live_after_app, Hlive. done.
Qed.

(** ** The active set under the invariant *)

Lemma NoDup_only (l : list nat) h :
  NoDup l -> (forall x, x ∈ l <-> x = h) -> l = [h].
Proof.
  intros Hnd Hiff. destruct l as [|a l].
  - assert (h ∈ @nil nat) as Hin by by apply Hiff. by apply elem_of_nil in Hin.
  - assert (a = h) as -> by (apply Hiff; left).
    destruct l as [|b l]; [done|]. exfalso.
    assert (b = h) as -> by (apply Hiff; right; left).
    apply NoDup_cons in Hnd as [Hnin _]. apply Hnin. left.
Qed.

Lemma active_handles_spec s h :
  h ∈ active_handles s <-> exists p, procs s !! h = Some p /\ proc_active p = true.
Proof.
  unfold active_handles. rewrite list_elem_of_filter, elem_of_seq. split.
  - intros [Hact _]. destruct (procs s !! h) as [p|]; simpl in Hact; [|done].
    exists p. split; [done|]. by destruct (proc_active p).
  - intros (p & Hl & Hact). rewrite Hl. simpl. rewrite Hact. split; [done|].
    apply lookup_lt_Some in Hl. lia.
Qed.

Lemma active_handles_inv c :
  Inv c -> active_handles (st c) = option_list (currentProcess (st c)).
Proof.
  intros HI.
  assert (Hnd : NoDup (active_handles (st c))).
  { unfold active_handles. apply NoDup_filter, NoDup_seq. }
  destruct (currentProcess (st c)) as [h|] eqn:Hcp; simpl.
  - apply NoDup_only; [done|]. intros x. rewrite active_handles_spec. split.
    + intros (p & Hl & Hact). pose proof (inv_active _ HI _ _ Hl Hact). congruence.
    + intros ->. by destruct (inv_current _ HI _ Hcp) as (_ & _ & H & _).
  - destruct (active_handles (st c)) as [|x l] eqn:E; [done|]. exfalso.
    assert (Hx : x ∈ active_handles (st c)) by (rewrite E; left).
    apply active_handles_spec in Hx as (p & Hl & Hact).
    pose proof (inv_active _ HI _ _ Hl Hact). congruence.
Qed.

(** ** Runs *)

Lemma run_step_eq c t i :
  run_step (c, t) i = ((step i c).1, t ++ (step i c).2).
Proof. unfold run_step. by destruct (step i c). Qed.

Lemma run_from_acc ins : forall c t,
  foldl run_step (c, t) ins = ((run ins c).1, t ++ (run ins c).2).
Proof.
  unfold run. induction ins as [|i ins IH]; intros c t; cbn [foldl].
  - by rewrite app_nil_r.
  - rewrite !run_step_eq. rewrite (IH _ (t ++ _)), (IH _ ([] ++ _)).
    cbn [fst snd app]. by rewrite <- app_assoc.
Qed.

Lemma run_cons i ins c :
  run (i :: ins) c =
  ((run ins (step i c).1).1, (step i c).2 ++ (run ins (step i c).1).2).
Proof.
  unfold run at 1. cbn [foldl]. rewrite run_step_eq.
  apply (run_from_acc ins _ ([] ++ _)).
Qed.

Lemma SReach_run ins : forall c t,
  SReach c t -> serial_run ins c = true ->
  SReach (run ins c).1 (t ++ (run ins c).2).
Proof.
  induction ins as [|i ins IH]; intros c t HR Hs.
  - unfold run; simpl. by rewrite app_nil_r.
  - cbn [serial_run] in Hs. apply andb_true_iff in Hs as [Hi Hrest].
    rewrite run_cons. cbn [fst snd]. rewrite app_assoc.
    apply IH; [by apply SReach_step|done].
Qed.

Lemma Reach_run ins : forall c t,
  Reach c t -> Reach (run ins c).1 (t ++ (run ins c).2).
Proof.
  induction ins as [|i ins IH]; intros c t HR.
  - unfold run; simpl. by rewrite app_nil_r.
  - rewrite run_cons. cbn [fst snd]. rewrite app_assoc.
    apply IH. by apply Reach_step.
Qed.

Lemma SReach_Reach c t : SReach c t -> Reach c t.
Proof. induction 1; by constructor. Qed.

Lemma demo_reached : SReach demo demo_trace.
Proof.
  apply (SReach_run [ClientReady true true true] (boot demo_disk) []
           (SReach_boot demo_disk)).
  vm_compute. reflexivity.
Qed.

Lemma demo_reached_any : Reach demo demo_trace.
Proof. apply SReach_Reach, demo_reached. Qed.

(** ** Calls that run to completion *)

Lemma step_ReqPlay_none c a :
  soundMap (st c) !! a = None -> inherited (soundMap (st c)) a = false ->
  step (ReqPlay a) c =
    (mkConfig (st c) (waiting c) (S (nextReq c)),
     [Respond (nextReq c) (ResJson 404 (BError ("Sound key '" +:+ a +:+ "' not found")))]).
Proof. intros Hm Hi. unfold step, play_request. by rewrite Hm, Hi. Qed.

Lemma step_ReqPlay_inherited c a :
  soundMap (st c) !! a = None -> inherited (soundMap (st c)) a = true ->
  step (ReqPlay a) c =
    (mkConfig (st c) (waiting c) (S (nextReq c)),
     [Console LPlayError;
      Respond (nextReq c) (ResJson 500 (BError "Internal server error"))]).
Proof. intros Hm Hi. unfold step, play_request. by rewrite Hm, Hi. Qed.

Lemma step_ReqPlay_some c a d :
  soundMap (st c) !! a = Some d ->
  step (ReqPlay a) c =
    (mkConfig (st c)
       (waiting c ++ [AwaitStat (mkPlayK (nextReq c) a d (path_join SOUND_DIR (filename d)))])
       (S (nextReq c)), []).
Proof. intros Hm. unfold step, play_request. by rewrite Hm. Qed.

Lemma step_IoDone_none c w : waiting c = [] -> step (IoDone 0 w) c = (c, []).
Proof. intros Hw. unfold step. by rewrite Hw. Qed.

Lemma step_IoDone_stat c k w :
  waiting c = [AwaitStat k] ->
  step (IoDone 0 w) c =
    (mkConfig (play_after_stat k (st c)).1 [] (nextReq c), (play_after_stat k (st c)).2).
Proof.
  intros Hw. unfold step. rewrite Hw. cbn [lookup list_lookup resume].
  by destruct (play_after_stat k (st c)).
Qed.

Lemma step_Idle c :
  step Idle c = (mkConfig (player_idle (st c)).1 (waiting c) (nextReq c), (player_idle (st c)).2).
Proof. unfold step. by destruct (player_idle (st c)). Qed.

Lemma run_nil c : run [] c = (c, []).
Proof. reflexivity. Qed.

Lemma play_call_not_found c a :
  quiescent c = true -> soundMap (st c) !! a = None ->
  inherited (soundMap (st c)) a = false ->
  play_call a c =
    (mkConfig (st c) [] (S (nextReq c)),
     [Respond (nextReq c) (ResJson 404 (BError ("Sound key '" +:+ a +:+ "' not found")))]).
Proof.
  intros [Hw Ha]%quiescent_spec Hm Hi.
  unfold play_call. rewrite !run_cons, run_nil.
  rewrite (step_ReqPlay_none _ _ Hm Hi). cbn [fst snd].
  rewrite step_IoDone_none by done. cbn [fst snd st app]. rewrite Ha, Hw. done.
Qed.

Lemma play_call_inherited c a :
  quiescent c = true -> soundMap (st c) !! a = None ->
  inherited (soundMap (st c)) a = true ->
  play_call a c =
    (mkConfig (st c) [] (S (nextReq c)),
     [Console LPlayError;
      Respond (nextReq c) (ResJson 500 (BError "Internal server error"))]).
Proof.
  intros [Hw Ha]%quiescent_spec Hm Hi.
  unfold play_call. rewrite !run_cons, run_nil.
  rewrite (step_ReqPlay_inherited _ _ Hm Hi). cbn [fst snd].
  rewrite step_IoDone_none by done. cbn [fst snd st app]. rewrite Ha, Hw. done.
Qed.

Lemma play_call_found c a d :
  waiting c = [] -> soundMap (st c) !! a = Some d ->
  let k := mkPlayK (nextReq c) a d (path_join SOUND_DIR (filename d)) in
  play_call a c =
    (if awaiting_idle (play_after_stat k (st c)).1
     then mkConfig (player_idle (play_after_stat k (st c)).1).1 [] (S (nextReq c))
     else mkConfig (play_after_stat k (st c)).1 [] (S (nextReq c)),
     (play_after_stat k (st c)).2 ++
       (if awaiting_idle (play_after_stat k (st c)).1
        then (player_idle (play_after_stat k (st c)).1).2 else [])).
Proof.
  intros Hw Hm k. unfold play_call. rewrite !run_cons, run_nil.
  rewrite (step_ReqPlay_some _ _ _ Hm). fold k. cbn [fst snd]. rewrite Hw. cbn [app].
  rewrite (step_IoDone_stat _ k) by done. cbn [fst snd st nextReq].
  rewrite app_nil_r.
  destruct (awaiting_idle (play_after_stat k (st c)).1); [|by rewrite app_nil_r].
  rewrite step_Idle. done.
Qed.

(** A play that is refused leaves everything but the request counter as
    it was. *)
Lemma play_after_stat_file_missing k s :
  disk s !! k_soundPath k = None ->
  play_after_stat k s =
    (s, [Respond (k_rid k) (ResJson 404
           (BError ("File '" +:+ filename (k_soundData k) +:+ "' does not exist")))]).
Proof. intros H. unfold play_after_stat. by rewrite H. Qed.

Lemma play_after_stat_not_connected k s :
  is_Some (disk s !! k_soundPath k) -> connection s = false ->
  play_after_stat k s =
    (s, [Respond (k_rid k) (ResJson 500 (BError "Bot not connected"))]).
Proof. intros [fd H] Hc. unfold play_after_stat. by rewrite H, Hc. Qed.

(** The two ways an accepted play goes on from a state the invariant
    describes: start at once, or stop the running session first. *)
Lemma play_after_stat_start k s :
  is_Some (disk s !! k_soundPath k) -> connection s = true -> isPlaying s = false ->
  play_after_stat k s =
    ((play_start k s).1,
     Console (LPlayRequest (k_sound k) (filename (k_soundData k))) :: (play_start k s).2).
Proof.
  intros [fd H] Hc Hp. unfold play_after_stat. rewrite H, Hc, Hp. cbn [negb].
  by destruct (play_start k s).
Qed.

Lemma play_after_stat_preempt k s h :
  is_Some (disk s !! k_soundPath k) -> connection s = true -> isPlaying s = true ->
  currentProcess s = Some h -> killed h s = false -> is_Some (playerResource s) ->
  play_after_stat k s =
    (stopped_for k h s,
     [Console (LPlayRequest (k_sound k) (filename (k_soundData k))); Kill h; PlayerStop]).
Proof.
  intros [fd H] Hc Hp Hcp Hk [r Hr]. unfold play_after_stat, stopCurrentPlayback.
  rewrite H, Hc, Hp, Hcp, Hk. cbn [negb playerResource set_currentProcess kill set_procs].
  rewrite Hr. reflexivity.
Qed.

Lemma play_call_accepted c a d :
  Inv c -> quiescent c = true ->
  soundMap (st c) !! a = Some d ->
  is_Some (disk (st c) !! path_join SOUND_DIR (filename d)) ->
  connection (st c) = true ->
  let k := mkPlayK (nextReq c) a d (path_join SOUND_DIR (filename d)) in
  let req := Console (LPlayRequest a (filename d)) in
  (isPlaying (st c) = false /\ currentProcess (st c) = None /\
   play_call a c =
     (mkConfig (play_start k (st c)).1 [] (S (nextReq c)),
      req :: (play_start k (st c)).2)) \/
  (exists h, isPlaying (st c) = true /\ currentProcess (st c) = Some h /\
   play_call a c =
     (mkConfig (play_start k (preempted h (st c))).1 [] (S (nextReq c)),
      [req; Kill h; PlayerStop; PlayerIdle h] ++ finished_logs (idleListeners (st c))
        ++ (play_start k (preempted h (st c))).2)).
Proof.
  intros HI [Hw Ha]%quiescent_spec Hm Hd Hc k req.
  pose proof Ha as Hst. apply awaiting_idle_stopped in Hst.
  rewrite (play_call_found _ _ _ Hw Hm). fold k.
  destruct (isPlaying (st c)) eqn:Hip.
  - right. destruct (inv_playing _ HI Hip) as [[h Hcp]|Habs]; [|congruence].
    destruct (inv_current _ HI _ Hcp) as (_ & Hpr & (p & Hp & Hact) & Hfin).
    assert (Hk : killed h (st c) = false).
    { unfold killed. rewrite Hp. simpl. unfold proc_active in Hact.
      by destruct (p_killed p). }
    exists h. split; [done|]. split; [done|].
    rewrite (play_after_stat_preempt k (st c) h) by (rewrite ?Hpr; eauto).
    cbn [fst snd].
    assert (Haw : awaiting_idle (stopped_for k h (st c)) = true).
    { unfold awaiting_idle, stopped_for. cbn [idleListeners set_idleListeners].
      rewrite existsb_app. simpl. by rewrite orb_true_r. }
    rewrite Haw.
    assert (Hr : playerResource (stopped_for k h (st c)) = Some h) by exact Hpr.
    rewrite (player_idle_spec _ _ Hr).
    assert (HL : idleListeners (stopped_for k h (st c)) = idleListeners (st c) ++ [OnStopped k])
      by reflexivity.
    rewrite HL, stopped_ks_app, Hst, existsb_app, Hfin. cbn [orb app stopped_ks omap].
    unfold finished_logs. rewrite omap_app. fold (finished_logs (idleListeners (st c))).
    cbn [omap]. rewrite app_nil_r.
    change (stopped_ks [OnStopped k]) with [k]. rewrite resume_play_one. reflexivity.
  - left. split; [done|].
    assert (Hcp : currentProcess (st c) = None).
    { destruct (currentProcess (st c)) as [h|] eqn:E; [|done].
      destruct (inv_current _ HI _ E) as [H _]. congruence. }
    split; [done|].
    rewrite (play_after_stat_start k (st c)) by done. cbn [fst snd].
    assert (Haw : awaiting_idle (play_start k (st c)).1 = false).
    { apply awaiting_idle_stopped. cbn. rewrite stopped_ks_app, Hst. done. }
    rewrite Haw. by rewrite app_nil_r.
Qed.

Lemma SReach_play_call c t a :
  SReach c t -> quiescent c = true ->
  SReach (play_call a c).1 (t ++ (play_call a c).2).
Proof.
  intros HR Hq. unfold play_call.
  assert (Hs : serial_run [ReqPlay a; IoDone 0 Written] c = true).
  { cbn [serial_run serial]. by rewrite Hq. }
  pose proof (SReach_run _ _ _ HR Hs) as H.
  destruct (run [ReqPlay a; IoDone 0 Written] c) as [c1 e1]. cbn [fst snd] in H.
  destruct (awaiting_idle (st c1)); [|done].
  pose proof (SReach_step _ _ Idle H eq_refl) as H'.
  destruct (step Idle c1) as [c2 e2]. cbn [fst snd] in *. by rewrite app_assoc.
Qed.


(** ** What holds in every execution *)









(** ** Preemption *)

Lemma play_start_facts k s :
  let s' := (play_start k s).1 in
  currentProcess s' = Some (length (procs s)) /\
  playerResource s' = Some (length (procs s)) /\
  isPlaying s' = true /\
  procs s' = procs s ++ [mkProc (k_soundPath k) false false] /\
  idleListeners s' = idleListeners s ++ [OnFinished (filename (k_soundData k))] /\
  soundMap s' = soundMap s /\ disk s' = disk s /\ connection s' = connection s /\
  wsClients s' = wsClients s /\
  (play_start k s).2 =
    [Spawn (length (procs s)) (k_soundPath k); Console LPlaybackStarted;
     PlayerPlay (length (procs s));
     Respond (k_rid k) (ResJson 200 (BStatus "Playing"))].
Proof. cbn. repeat split. Qed.

Lemma preempted_facts h s :
  procs (preempted h s) =
    alter (fun p => mkProc (p_input p) (p_killed p) true) h
      (alter (fun p => mkProc (p_input p) true (p_done p)) h (procs s)) /\
  idleListeners (preempted h s) = [] /\
  soundMap (preempted h s) = soundMap s /\ disk (preempted h s) = disk s /\
  connection (preempted h s) = connection s /\ wsClients (preempted h s) = wsClients s.
Proof. cbn. repeat split. Qed.

Lemma preempted_length h s : length (procs (preempted h s)) = length (procs s).
Proof. destruct (preempted_facts h s) as [-> _]. by rewrite !length_alter. Qed.

(** What an accepted play leaves behind, whichever way it went. *)
Lemma play_call_accepted_post c a d :
  Inv c -> quiescent c = true ->
  soundMap (st c) !! a = Some d ->
  is_Some (disk (st c) !! path_join SOUND_DIR (filename d)) ->
  connection (st c) = true ->
  let c' := (play_call a c).1 in
  let h := length (procs (st c)) in
  quiescent c' = true /\ nextReq c' = S (nextReq c) /\
  soundMap (st c') = soundMap (st c) /\ disk (st c') = disk (st c) /\
  connection (st c') = true /\
  isPlaying (st c') = true /\ currentProcess (st c') = Some h /\
  playerResource (st c') = Some h /\
  length (procs (st c')) = S h /\
  procs (st c') !! h = Some (mkProc (path_join SOUND_DIR (filename d)) false false) /\
  last (play_call a c).2 = Some (Respond (nextReq c) (ResJson 200 (BStatus "Playing"))).
Proof.
  intros HI Hq Hm Hd Hc c' h.
  pose proof Hq as [Hw Ha]%quiescent_spec. apply awaiting_idle_stopped in Ha.
  destruct (play_call_accepted c a d HI Hq Hm Hd Hc) as [(Hip & Hcp & E)|(h0 & Hip & Hcp & E)];
    subst c'; rewrite E; cbn [fst snd st waiting nextReq].
  - match goal with |- context [play_start ?k ?s] =>
      destruct (play_start_facts k s) as (F1 & F2 & F3 & F4 & F5 & F6 & F7 & F8 & F9 & F10) end.
    cbn zeta in *. rewrite F1, F2, F3, F4, F6, F7, F8, F10. cbn [k_soundPath k_rid].
    repeat split; try done;
      match goal with
      | |- quiescent _ = true =>
          apply quiescent_spec; split; [done|]; apply awaiting_idle_stopped;
          cbn [st]; rewrite F5, stopped_ks_app, Ha; done
      | |- length _ = _ => rewrite length_app; cbn; subst h; lia
      | |- _ !! _ = Some _ => by apply list_lookup_middle
      end.
  - match goal with |- context [play_start ?k ?s] =>
      destruct (play_start_facts k s) as (F1 & F2 & F3 & F4 & F5 & F6 & F7 & F8 & F9 & F10) end.
    destruct (preempted_facts h0 (st c)) as (P1 & P2 & P3 & P4 & P5 & P6).
    pose proof (preempted_length h0 (st c)) as PL.
    cbn zeta in *. rewrite F1, F2, F3, F4, F6, F7, F8, F10, PL, P3, P4, P5.
    cbn [k_soundPath k_rid].
    repeat split; try done;
      match goal with
      | |- quiescent _ = true =>
          apply quiescent_spec; split; [done|]; apply awaiting_idle_stopped;
          cbn [st]; rewrite F5, P2; done
      | |- length _ = _ => rewrite length_app, PL; cbn; subst h; lia
      | |- _ !! _ = Some _ => apply list_lookup_middle; by rewrite PL
      | |- last _ = _ => by rewrite !last_app
      end.
Qed.


(** ** The one-active-slot invariant *)







(** ** Uploads that run to completion *)

Lemma step_IoDone_write c u w :
  waiting c = [AwaitSoundWrite u] ->
  step (IoDone 0 w) c =
    (mkConfig (upload_after_write u w (st c)).1.1
              (option_list (upload_after_write u w (st c)).2) (nextReq c),
     (upload_after_write u w (st c)).1.2).
Proof.
  intros Hw. unfold step. rewrite Hw. cbn [lookup list_lookup resume].
  by destruct (upload_after_write u w (st c)) as [[s e] again].
Qed.

Lemma step_IoDone_save c u data w :
  waiting c = [AwaitMapWrite u data] ->
  step (IoDone 0 w) c =
    (mkConfig (upload_after_save u data w (st c)).1 [] (nextReq c),
     (upload_after_save u data w (st c)).2).
Proof.
  intros Hw. unfold step. rewrite Hw. cbn [lookup list_lookup resume].
  by destruct (upload_after_save u data w (st c)).
Qed.

Lemma upload_request_invalid rid file name emoji uuid e :
  upload_request rid file name emoji uuid = inl e ->
  e = [Respond rid (ResJson 400 (BError "Missing file or name"))].
Proof.
  unfold upload_request. intros E.
  destruct file; [destruct name as [nm|]; [destruct (decide (nm = ""))|]|];
    try discriminate; by injection E as <-.
Qed.

Lemma upload_call_invalid c file name emoji uuid w1 w2 e :
  waiting c = [] -> upload_request (nextReq c) file name emoji uuid = inl e ->
  upload_call file name emoji uuid w1 w2 c =
    (mkConfig (st c) [] (S (nextReq c)),
     [Respond (nextReq c) (ResJson 400 (BError "Missing file or name"))]).
Proof.
  intros Hw E. unfold upload_call. rewrite !run_cons, run_nil.
  assert (E1 : step (ReqUpload file name emoji uuid) c =
               (mkConfig (st c) [] (S (nextReq c)), e)).
  { unfold step. by rewrite E, Hw. }
  rewrite E1. cbn [fst snd]. rewrite !step_IoDone_none by done. cbn [fst snd].
  rewrite (upload_request_invalid _ _ _ _ _ _ E). done.
Qed.

Lemma upload_call_valid c f n emoji uuid w1 w2 :
  waiting c = [] -> n <> "" ->
  let u := upload_k c f n emoji uuid in
  let a := upload_after_write u w1 (st c) in
  upload_call (Some f) (Some n) emoji uuid w1 w2 c =
    if write_ok w1 then
      (mkConfig (upload_after_save u (saveMap a.1.1) w2 a.1.1).1 [] (S (nextReq c)),
       a.1.2 ++ (upload_after_save u (saveMap a.1.1) w2 a.1.1).2)
    else (mkConfig a.1.1 [] (S (nextReq c)), a.1.2).
Proof.
  intros Hw Hn u a. unfold upload_call. rewrite !run_cons, run_nil.
  assert (E : step (ReqUpload (Some f) (Some n) emoji uuid) c =
              (mkConfig (st c) [AwaitSoundWrite u] (S (nextReq c)), [])).
  { unfold step, upload_request. rewrite decide_False by done. rewrite Hw. reflexivity. }
  rewrite E. cbn [fst snd app].
  rewrite (step_IoDone_write (mkConfig (st c) [AwaitSoundWrite u] (S (nextReq c))) u w1)
    by reflexivity. cbn [fst snd st nextReq]. fold a.
  assert (Hag : a.2 = if write_ok w1 then Some (AwaitMapWrite u (saveMap a.1.1)) else None).
  { subst a. unfold upload_after_write. by destruct (write_ok w1). }
  rewrite Hag. destruct (write_ok w1); cbn [option_list].
  - rewrite (step_IoDone_save _ u (saveMap a.1.1)) by reflexivity.
    cbn [fst snd st nextReq]. by rewrite app_nil_r.
  - rewrite step_IoDone_none by reflexivity. cbn [fst snd]. by rewrite !app_nil_r.
Qed.

Lemma upload_begin_valid c f n emoji uuid w1 :
  waiting c = [] -> n <> "" ->
  let u := upload_k c f n emoji uuid in
  let a := upload_after_write u w1 (st c) in
  run [ReqUpload (Some f) (Some n) emoji uuid; IoDone 0 w1] c =
    (mkConfig a.1.1 (option_list a.2) (S (nextReq c)), a.1.2).
Proof.
  intros Hw Hn u a. rewrite !run_cons, run_nil.
  assert (E : step (ReqUpload (Some f) (Some n) emoji uuid) c =
              (mkConfig (st c) [AwaitSoundWrite u] (S (nextReq c)), [])).
  { unfold step, upload_request. rewrite decide_False by done. rewrite Hw. reflexivity. }
  rewrite E. cbn [fst snd app].
  rewrite (step_IoDone_write (mkConfig (st c) [AwaitSoundWrite u] (S (nextReq c))) u w1)
    by reflexivity. cbn [fst snd st nextReq]. by rewrite app_nil_r.
Qed.

(** ** Refused plays *)

(** C4.  A play that is refused answers in the very step that finds the
    failure and leaves the whole state as it was: the step only counts the
    request or takes it off the waiting list.  That is so when the read of
    the name finds nothing (404), when the registered file is not on disk
    (404) and when the bot has no voice connection (500), in every
    configuration, whatever else is in flight.  A name that is not in the
    registry but that every object inherits, such as [constructor], is not
    answered 404: the read of line 173 finds the inherited value, line 178
    throws, and the catch-all logs and answers 500 "Internal server error",
    in the same step and with the state unchanged as well. *)
Theorem refused_play_leaves_state (c : Config) :
  (forall a, soundMap (st c) !! a = None ->
     step (ReqPlay a) c =
       (mkConfig (st c) (waiting c) (S (nextReq c)),
        if inherited (soundMap (st c)) a then
          [Console LPlayError;
           Respond (nextReq c) (ResJson 500 (BError "Internal server error"))]
        else
          [Respond (nextReq c)
             (ResJson 404 (BError ("Sound key '" +:+ a +:+ "' not found")))])) /\
  (forall i k w, waiting c !! i = Some (AwaitStat k) ->
     disk (st c) !! k_soundPath k = None ->
     step (IoDone i w) c =
       (mkConfig (st c) (delete i (waiting c)) (nextReq c),
        [Respond (k_rid k)
           (ResJson 404 (BError ("File '" +:+ filename (k_soundData k)
                                  +:+ "' does not exist")))])) /\
  (forall i k w, waiting c !! i = Some (AwaitStat k) ->
     is_Some (disk (st c) !! k_soundPath k) -> connection (st c) = false ->
     step (IoDone i w) c =
       (mkConfig (st c) (delete i (waiting c)) (nextReq c),
        [Respond (k_rid k) (ResJson 500 (BError "Bot not connected"))])).
Proof.
  split; [|split].
  - intros a Hm. destruct (inherited (soundMap (st c)) a) eqn:Hi.
    + by apply step_ReqPlay_inherited.
    + by apply step_ReqPlay_none.
  - intros i k w Hi Hd. unfold step. rewrite Hi. cbn [resume].
    rewrite play_after_stat_file_missing by done. cbn [option_list].
    by rewrite app_nil_r.
  - intros i k w Hi Hd Hc. unfold step. rewrite Hi. cbn [resume].
    rewrite play_after_stat_not_connected by done. cbn [option_list].
    by rewrite app_nil_r.
Qed.

Lemma refused_play_leaves_state_witness :
  (soundMap (st demo) !! "gong" = None /\
   step (ReqPlay "gong") demo =
     (mkConfig (st demo) (waiting demo) (S (nextReq demo)),
      [Respond (nextReq demo) (ResJson 404 (BError "Sound key 'gong' not found"))])) /\
  (soundMap (st demo) !! "constructor" = None /\
   step (ReqPlay "constructor") demo =
     (mkConfig (st demo) (waiting demo) (S (nextReq demo)),
      [Console LPlayError;
       Respond (nextReq demo) (ResJson 500 (BError "Internal server error"))])) /\
  (waiting demo_orphan_play !! 0
     = Some (AwaitStat (mkPlayK 0 "siren" siren "sounds/siren.mp3")) /\
   disk (st demo_orphan_play) !! "sounds/siren.mp3" = None /\
   step (IoDone 0 Written) demo_orphan_play =
     (mkConfig (st demo_orphan_play) (delete 0 (waiting demo_orphan_play))
        (nextReq demo_orphan_play),
      [Respond 0 (ResJson 404 (BError "File 'siren.mp3' does not exist"))])) /\
  (waiting demo_offline_play !! 0
     = Some (AwaitStat (mkPlayK 0 "siren" siren "sounds/siren.mp3")) /\
   is_Some (disk (st demo_offline_play) !! "sounds/siren.mp3") /\
   connection (st demo_offline_play) = false /\
   step (IoDone 0 Written) demo_offline_play =
     (mkConfig (st demo_offline_play) (delete 0 (waiting demo_offline_play))
        (nextReq demo_offline_play),
      [Respond 0 (ResJson 500 (BError "Bot not connected"))])).
Proof.
  assert (H1 : soundMap (st demo) !! "gong" = None) by by_running.
  assert (H1' : soundMap (st demo) !! "constructor" = None) by by_running.
  assert (H2 : waiting demo_orphan_play !! 0
               = Some (AwaitStat (mkPlayK 0 "siren" siren "sounds/siren.mp3")))
    by by_running.
  assert (H3 : disk (st demo_orphan_play) !! "sounds/siren.mp3" = None) by by_running.
  assert (H4 : waiting demo_offline_play !! 0
               = Some (AwaitStat (mkPlayK 0 "siren" siren "sounds/siren.mp3")))
    by by_running.
  assert (H5 : is_Some (disk (st demo_offline_play) !! "sounds/siren.mp3"))
    by (eexists; by_running).
  assert (H6 : connection (st demo_offline_play) = false) by by_running.
  split; [split; [exact H1|]|split; [split; [exact H1'|]|
    split; [split; [exact H2|split; [exact H3|]]
           |split; [exact H4|split; [exact H5|split; [exact H6|]]]]]].
  - exact (proj1 (refused_play_leaves_state demo) "gong" H1).
  - exact (proj1 (refused_play_leaves_state demo) "constructor" H1').
  - exact (proj1 (proj2 (refused_play_leaves_state demo_orphan_play)) 0 _ Written H2 H3).
  - exact (proj2 (proj2 (refused_play_leaves_state demo_offline_play)) 0 _ Written H4 H5 H6).
Defined.

(** The same for a call that runs to completion. *)
Lemma refused_play_call c a :
  quiescent c = true ->
  match soundMap (st c) !! a with
  | None =>
      play_call a c =
        (mkConfig (st c) [] (S (nextReq c)),
         if inherited (soundMap (st c)) a then
           [Console LPlayError;
            Respond (nextReq c) (ResJson 500 (BError "Internal server error"))]
         else
           [Respond (nextReq c)
              (ResJson 404 (BError ("Sound key '" +:+ a +:+ "' not found")))])
  | Some d =>
      match disk (st c) !! path_join SOUND_DIR (filename d) with
      | None =>
          play_call a c =
            (mkConfig (st c) [] (S (nextReq c)),
             [Respond (nextReq c)
                (ResJson 404 (BError ("File '" +:+ filename d +:+ "' does not exist")))])
      | Some _ =>
          connection (st c) = false ->
          play_call a c =
            (mkConfig (st c) [] (S (nextReq c)),
             [Respond (nextReq c) (ResJson 500 (BError "Bot not connected"))])
      end
  end.
Proof.
  intros Hq. pose proof Hq as [Hw Ha]%quiescent_spec.
  destruct (soundMap (st c) !! a) as [d|] eqn:Hm.
  2:{ destruct (inherited (soundMap (st c)) a) eqn:Hi;
        [by apply play_call_inherited|by apply play_call_not_found]. }
  destruct (disk (st c) !! path_join SOUND_DIR (filename d)) as [fd|] eqn:Hd.
  - intros Hc. rewrite (play_call_found _ _ _ Hw Hm).
    rewrite play_after_stat_not_connected by (cbn; eauto). cbn [fst snd].
    by rewrite Ha, app_nil_r.
  - rewrite (play_call_found _ _ _ Hw Hm).
    rewrite play_after_stat_file_missing by done. cbn [fst snd].
    by rewrite Ha, app_nil_r.
Qed.

(** ** Stop *)

(** C5.  [/stop] never fails: in every state it answers
    [{ status: 'Stopped' }], after at most one kill and the call of
    [player.stop()], and leaves the slot idle.  When the slot is already
    idle it changes nothing at all, so stopping twice is the same as
    stopping once. *)
Theorem stop_idempotent_total (c : Config) :
  let stopped := Respond (nextReq c) (ResJson 200 (BStatus "Stopped")) in
  ((stop_call c).2 = [PlayerStop; stopped] \/
   exists h, currentProcess (st c) = Some h /\ (stop_call c).2 = [Kill h; PlayerStop; stopped]) /\
  slot_idle (st (stop_call c).1) /\
  (slot_idle (st c) ->
     st (stop_call c).1 = st c /\ (stop_call c).2 = [PlayerStop; stopped]) /\
  st (stop_call (stop_call c).1).1 = st (stop_call c).1.
Proof.
  destruct c as [[m d conn cp ip pr L ps ws rp] w n].
  unfold stop_call, step, stop_request, slot_idle. cbn [st nextReq currentProcess].
  destruct cp as [h|]; cbn.
  - split; [right; eauto|]. split; [done|]. split; [|done]. by intros [? _].
  - split; [by left|]. split; [done|]. split; [|done]. by intros [_ ->].
Qed.

Lemma stop_idempotent_total_witness :
  slot_idle (st demo) /\ st (stop_call demo).1 = st demo.
Proof.
  assert (H : slot_idle (st demo)) by (split; vm_compute; reflexivity).
  split; [exact H|].
  exact (proj1 (proj1 (proj2 (proj2 (stop_idempotent_total demo))) H)).
Defined.

(** ** Completion callbacks *)







(** ** The registry *)

Lemma upload_after_write_ok u s :
  upload_after_write u Written s =
    (set_soundMap
       (<[u_name u := mkClip (u_filename u) (js_or (u_emoji u) "")]> (soundMap s))
       (set_disk (<[u_filepath u := Whole (Raw (u_buffer u))]> (disk s)) s),
     [FsWrite (u_filepath u) (Raw (u_buffer u)) Written],
     Some (AwaitMapWrite u
             (Json (<[u_name u := mkClip (u_filename u) (js_or (u_emoji u) "")]>
                      (soundMap s))))).
Proof. reflexivity. Qed.

(** What an upload whose sound file was written does to the map. *)
Lemma upload_put_facts c f n emoji uuid w2 :
  waiting c = [] -> n <> "" ->
  let u := upload_k c f n emoji uuid in
  let clip := mkClip (u_filename u) (js_or emoji "") in
  let mid := run [ReqUpload (Some f) (Some n) emoji uuid; IoDone 0 Written] c in
  let r := upload_call (Some f) (Some n) emoji uuid Written w2 c in
  soundMap (st mid.1) !! n = Some clip /\
  waiting mid.1 = [AwaitMapWrite u (Json (soundMap (st mid.1)))] /\
  mid.2 = [FsWrite (u_filepath u) (Raw (f_buffer f)) Written] /\
  soundMap (st r.1) = <[n := clip]> (soundMap (st c)) /\
  (forall rid, play_request rid n (st r.1) =
     inr (mkPlayK rid n clip (path_join SOUND_DIR (filename clip)))) /\
  (write_ok w2 = false ->
     r.2 = [FsWrite (u_filepath u) (Raw (f_buffer f)) Written;
            FsWrite MAP_FILE (Json (<[n := clip]> (soundMap (st c)))) w2;
            Rejected (nextReq c) MAP_FILE]).
Proof.
  intros Hw Hn u clip mid r.
  subst mid r. rewrite (upload_begin_valid c f n emoji uuid Written Hw Hn).
  rewrite (upload_call_valid c f n emoji uuid Written w2 Hw Hn).
  fold u. rewrite upload_after_write_ok. cbn [fst snd write_ok st waiting option_list].
  unfold upload_after_save, saveMap, saveMap_settled.
  cbn [soundMap set_soundMap set_disk].
  change (u_name u) with n. change (u_emoji u) with emoji. fold clip.
  split; [apply lookup_insert_eq|]. split; [done|]. split; [reflexivity|].
  assert (E : forall (b : bool) (x y : State * list Event),
            soundMap x.1 = <[n := clip]> (soundMap (st c)) ->
            soundMap y.1 = <[n := clip]> (soundMap (st c)) ->
            soundMap (if b then x else y).1 = <[n := clip]> (soundMap (st c))).
  { by intros []. }
  split; [by apply E|]. split.
  - intros rid. unfold play_request. rewrite E by done.
    by rewrite lookup_insert_eq.
  - intros ->. reflexivity.
Qed.













(** C8 as stated fails.  The registry on disk holds [siren] and [horn]; an
    upload of [bell] gets as far as the snapshot write, which is cut short
    right after [fs.writeFile] has opened (and so truncated) the snapshot
    file.  The file is now torn, and the next start-up finds nothing it can
    parse: the registry that was safely on disk before is gone. *)
Lemma torn_save_loses_snapshot :
  loadMap (disk (st demo)) = demo_map /\
  disk (st demo_torn.1) !! MAP_FILE
    = Some (Torn (Json (<["bell" := mkClip "0000.wav" ""]> demo_map)) 0) /\
  soundMap (st (boot (disk (st demo_torn.1)))) = ∅.
Proof. vm_compute. repeat split. Qed.

(** C8, amended.  [saveMap] writes the snapshot in place, with one
    [fs.writeFile] on the snapshot file itself.  No other file is touched.
    A write that completes leaves the serialised map, which the next
    start-up reads back; a write that fails before opening the file leaves
    the disk as it was; a write cut short after [n] bytes leaves the first
    [n] bytes of the new text where the old snapshot was: as long as [n] is
    short of the length of the text, which is two bytes at least, the next
    start-up finds nothing it can parse and begins with the empty
    registry, and the snapshot that was there before is gone. *)
Theorem saveMap_writes_in_place (s : State) (w : WriteOutcome) :
  let s' := saveMap_settled (saveMap s) w s in
  (forall p, p <> MAP_FILE -> disk s' !! p = disk s !! p) /\
  2 <= json_size (soundMap s) /\
  match w with
  | Written =>
      disk s' !! MAP_FILE = Some (Whole (Json (soundMap s))) /\
      loadMap (disk s') = listed (soundMap s)
  | FailedClean => disk s' = disk s
  | FailedTorn n =>
      disk s' !! MAP_FILE = Some (Torn (Json (soundMap s)) n) /\
      loadMap (disk s') =
        if decide (json_size (soundMap s) <= n) then listed (soundMap s) else ∅
  end.
Proof.
  unfold saveMap_settled, saveMap, loadMap. cbn [disk set_disk]. split; [|split].
  - intros p Hp. destruct w; cbn [fs_writeFile]; [|done|];
      by rewrite lookup_insert_ne.
  - unfold json_size. lia.
  - destruct w; cbn [fs_writeFile]; [|done|]; by rewrite !lookup_insert_eq.
Qed.

Lemma saveMap_writes_in_place_witness :
  "sounds/siren.mp3" <> MAP_FILE /\
  disk (saveMap_settled (saveMap (st demo)) (FailedTorn 3) (st demo)) !! "sounds/siren.mp3"
    = disk (st demo) !! "sounds/siren.mp3" /\
  json_size (soundMap (st demo)) = 127 /\
  loadMap (disk (saveMap_settled (saveMap (st demo)) (FailedTorn 3) (st demo))) = ∅ /\
  loadMap (disk (saveMap_settled (saveMap (st demo)) (FailedTorn 127) (st demo))) = demo_map.
Proof.
  assert (H : "sounds/siren.mp3" <> MAP_FILE) by (vm_compute; discriminate).
  split; [exact H|].
  split; [exact (proj1 (saveMap_writes_in_place (st demo) (FailedTorn 3)) "sounds/siren.mp3" H)|].
  split; [by_running|]. split.
  - rewrite (proj2 (proj2 (proj2 (saveMap_writes_in_place (st demo) (FailedTorn 3))))).
    by_running.
  - rewrite (proj2 (proj2 (proj2 (saveMap_writes_in_place (st demo) (FailedTorn 127))))).
    by_running.
Defined.

(** C9.  An upload without an emoji, or with the empty one, stores the
    clip with the empty string as emoji, and a read of its name, as
    [/play] does it, finds it so.  The uploader gets the same answer as
    with any other emoji, so a missing emoji never makes an upload fail.
    For every name but one, [/mappings], the broadcast and the snapshot
    show the clip as well.  The name [__proto__] is the one: the assignment
    of line 156 then makes the clip the prototype of the map and no entry
    of it, and [/mappings], the broadcast and the snapshot leave it out. *)
Theorem missing_emoji_is_empty (c : Config) (f : UploadedFile) (n : string)
    (emoji : option string) (uuid : string) (w1 w2 : WriteOutcome) :
  waiting c = [] -> n <> "" -> emoji = None \/ emoji = Some "" ->
  let r := upload_call (Some f) (Some n) emoji uuid w1 w2 c in
  let clip := mkClip (uuid +:+ js_or (Some (f_ext f)) ".mp3") "" in
  let shown (m : SoundMap) :=
    listed m !! n = if decide (n = "__proto__") then None else Some clip in
  (write_ok w1 = true ->
     soundMap (st r.1) !! n = Some clip /\
     (forall rid, play_request rid n (st r.1) =
        inr (mkPlayK rid n clip (path_join SOUND_DIR (filename clip)))) /\
     (exists m, (step ReqMappings r.1).2 = [Respond (nextReq r.1) (ResJson 200 (BSounds m))]
                /\ shown m) /\
     (write_ok w2 = true ->
        last r.2 = Some (Respond (nextReq c) (ResRedirect "/")) /\
        (exists cl m, r.2 !! 2 = Some (Broadcast cl m) /\ shown m) /\
        loadMap (disk (st r.1)) !! n
          = if decide (n = "__proto__") then None else Some clip)) /\
  (forall emoji',
     omap answer_of r.2 =
     omap answer_of (upload_call (Some f) (Some n) emoji' uuid w1 w2 c).2).
Proof.
  intros Hw Hn He r clip shown.
  assert (Hjs : js_or emoji "" = "") by (destruct He as [-> | ->]; reflexivity).
  assert (Hshown : forall m : SoundMap, m !! n = Some clip -> shown m).
  { intros m Hm. unfold shown. destruct (decide (n = "__proto__")) as [->|Hp].
    - apply listed_lookup_proto.
    - by rewrite listed_lookup_ne. }
  subst r. split.
  - intros Hok1. destruct w1; try discriminate.
    destruct (upload_put_facts c f n emoji uuid w2 Hw Hn) as (_ & _ & _ & Hm & Hget & _).
    cbn zeta in Hm, Hget. cbn [upload_k u_filename] in Hm, Hget.
    rewrite Hjs in Hm, Hget. fold clip in Hm, Hget.
    split; [rewrite Hm; apply lookup_insert_eq|]. split; [exact Hget|]. split.
    + eexists. split; [reflexivity|]. apply Hshown. rewrite Hm. apply lookup_insert_eq.
    + intros Hok2. destruct w2; try discriminate.
      rewrite (upload_call_valid c f n emoji uuid Written Written Hw Hn).
      cbn [write_ok]. rewrite upload_after_write_ok. cbn [fst snd].
      split; [reflexivity|]. split.
      * eexists _, _. split; [reflexivity|]. apply Hshown.
        cbn. rewrite Hjs. apply lookup_insert_eq.
      * unfold upload_after_save, saveMap, saveMap_settled, loadMap.
        cbn [write_ok fst st soundMap disk set_disk set_soundMap fs_writeFile].
        rewrite lookup_insert_eq. apply Hshown.
        cbn. rewrite Hjs. apply lookup_insert_eq.
  - intros emoji'.
    rewrite !(upload_call_valid c f n _ uuid w1 w2 Hw Hn).
    destruct w1; cbn [write_ok]; try reflexivity.
    rewrite !upload_after_write_ok. cbn [fst snd].
    unfold upload_after_save. destruct w2; reflexivity.
Qed.

Lemma missing_emoji_is_empty_witness :
  waiting demo = [] /\ "bell" <> "" /\ "__proto__" <> "" /\
  (@None string = None \/ @None string = Some "") /\
  soundMap (st (upload_call (Some (mkFile "" [])) (Some "bell") None "0000"
                  Written Written demo).1) !! "bell"
    = Some (mkClip "0000.mp3" "") /\
  soundMap (st (upload_call (Some (mkFile "" [])) (Some "__proto__") None "0000"
                  Written Written demo).1) !! "__proto__"
    = Some (mkClip "0000.mp3" "") /\
  loadMap (disk (st (upload_call (Some (mkFile "" [])) (Some "__proto__") None "0000"
                       Written Written demo).1)) !! "__proto__" = None.
Proof.
  assert (H1 : waiting demo = []) by by_running.
  assert (H2 : "bell" <> "") by discriminate.
  assert (H2' : "__proto__" <> "") by discriminate.
  assert (H3 : @None string = None \/ @None string = Some "") by (left; reflexivity).
  split; [exact H1|]. split; [exact H2|]. split; [exact H2'|]. split; [exact H3|].
  split; [|split].
  - exact (proj1 (proj1 (missing_emoji_is_empty demo (mkFile "" []) "bell" None "0000"
                           Written Written H1 H2 H3) eq_refl)).
  - exact (proj1 (proj1 (missing_emoji_is_empty demo (mkFile "" []) "__proto__" None "0000"
                           Written Written H1 H2' H3) eq_refl)).
  - destruct (proj1 (missing_emoji_is_empty demo (mkFile "" []) "__proto__" None "0000"
                      Written Written H1 H2' H3) eq_refl) as (_ & _ & _ & H).
    exact (proj2 (proj2 (H eq_refl))).
Defined.

(** ** The disk *)

Lemma resume_plays_disk ks : forall s e,
  disk (foldl resume_play (s, e) ks).1 = disk s.
Proof.
  induction ks as [|k ks IH]; intros s e; [done|].
  cbn [foldl]. unfold resume_play at 2. cbn [play_start]. by rewrite IH.
Qed.

Lemma player_idle_disk s : disk (player_idle s).1 = disk s.
Proof.
  destruct (playerResource s) as [r|] eqn:Hr.
  - rewrite (player_idle_spec _ _ Hr), resume_plays_disk.
    by destruct (existsb is_OnFinished (idleListeners s)).
  - unfold player_idle. by rewrite Hr.
Qed.

Lemma play_after_stat_disk k s : disk (play_after_stat k s).1 = disk s.
Proof.
  unfold play_after_stat, stopCurrentPlayback.
  destruct (disk s !! k_soundPath k); [|done].
  destruct (connection s); [|done]. cbn [negb].
  destruct (isPlaying s); [|done].
  destruct (currentProcess s) as [h|]; [destruct (killed h s)|];
    cbn [playerResource set_currentProcess kill set_procs];
    by destruct (playerResource s).
Qed.

Lemma fs_writeFile_keeps path data w (d : Disk) p :
  is_Some (d !! p) -> is_Some (fs_writeFile path data w d !! p).
Proof.
  intros Hp. destruct w; cbn [fs_writeFile]; [|done|];
    (destruct (decide (path = p)) as [->|Hne];
     [rewrite lookup_insert_eq; eauto | by rewrite lookup_insert_ne]).
Qed.

Lemma step_disk i c :
  (settles_write i c = false -> disk (st (step i c).1) = disk (st c)) /\
  (forall p, is_Some (disk (st c) !! p) -> is_Some (disk (st (step i c).1) !! p)).
Proof.
  assert (Hsame : disk (st (step i c).1) = disk (st c) ->
                  forall p, is_Some (disk (st c) !! p) ->
                            is_Some (disk (st (step i c).1) !! p)).
  { by intros ->. }
  destruct i as [sound| |file name em uuid| |i w| |h| |n|guild channel entered];
    cbn [settles_write].
  - assert (E : disk (st (step (ReqPlay sound) c).1) = disk (st c)).
    { unfold step. by destruct (play_request _ _ _). }
    auto.
  - assert (E : disk (st (step ReqStop c).1) = disk (st c)).
    { unfold step, stop_request. by destruct (currentProcess (st c)). }
    auto.
  - assert (E : disk (st (step (ReqUpload file name em uuid) c).1) = disk (st c)).
    { unfold step. by destruct (upload_request _ _ _ _ _). }
    auto.
  - auto.
  - destruct (waiting c !! i) as [[k|u|u data]|] eqn:Hx.
    + assert (E : disk (st (step (IoDone i w) c).1) = disk (st c)).
      { unfold step. rewrite Hx. cbn [resume].
        pose proof (play_after_stat_disk k (st c)) as H.
        by destruct (play_after_stat k (st c)). }
      auto.
    + split; [done|]. intros p Hp. unfold step. rewrite Hx. cbn [resume].
      unfold upload_after_write. destruct (write_ok w); cbn [fst snd st disk set_soundMap set_disk];
        by apply fs_writeFile_keeps.
    + split; [done|]. intros p Hp. unfold step. rewrite Hx. cbn [resume].
      unfold upload_after_save, saveMap_settled.
      destruct (write_ok w); cbn [fst snd st disk set_disk]; by apply fs_writeFile_keeps.
    + assert (E : disk (st (step (IoDone i w) c).1) = disk (st c)).
      { unfold step. by rewrite Hx. }
      auto.
  - assert (E : disk (st (step Idle c).1) = disk (st c)).
    { rewrite step_Idle. apply player_idle_disk. }
    auto.
  - assert (E : disk (st (step (ProcError h) c).1) = disk (st c)).
    { unfold step, proc_error. by destruct (decide _). }
    auto.
  - auto.
  - auto.
  - assert (E : disk (st (step (ClientReady guild channel entered) c).1) = disk (st c)).
    { unfold step. by unfold client_ready; destruct (readyPending _), (guild && channel). }
    auto.
Qed.

(** C10.  No input ever removes a file: whatever is delivered, every path
    that was on disk still is.  Only a settling upload write changes the
    disk at all; a play, a stop, the player's Idle event and the rest leave
    it as it is.  An upload writes its bytes to the file named by the
    UUID it was given, followed by the extension, and touches no other
    file but the snapshot.  Once that write has succeeded the bytes are in
    that file and the entry of the name points at it, replacing the entry
    that was there; the file the old entry pointed to keeps its content,
    its name being another one and not that of the snapshot, which every
    upload rewrites.  When the write fails the map is left as it was.  The
    code does not look whether the generated name is taken: what keeps it
    new is [crypto.randomUUID]. *)
Theorem no_sound_file_is_deleted (c : Config) :
  (forall i p, is_Some (disk (st c) !! p) -> is_Some (disk (st (step i c).1) !! p)) /\
  (forall i, settles_write i c = false -> disk (st (step i c).1) = disk (st c)) /\
  (forall f n emoji uuid w1 w2,
     waiting c = [] -> n <> "" ->
     let u := upload_k c f n emoji uuid in
     let r := upload_call (Some f) (Some n) emoji uuid w1 w2 c in
     u_filepath u = path_join SOUND_DIR (uuid +:+ js_or (Some (f_ext f)) ".mp3") /\
     head r.2 = Some (FsWrite (u_filepath u) (Raw (f_buffer f)) w1) /\
     (forall p, p <> u_filepath u -> p <> MAP_FILE ->
        disk (st r.1) !! p = disk (st c) !! p) /\
     (write_ok w1 = true -> u_filepath u <> MAP_FILE ->
        disk (st r.1) !! u_filepath u = Some (Whole (Raw (f_buffer f))) /\
        soundMap (st r.1) !! n = Some (mkClip (u_filename u) (js_or emoji ""))) /\
     (write_ok w1 = false -> soundMap (st r.1) = soundMap (st c)) /\
     (forall old, soundMap (st c) !! n = Some old ->
        filename old <> u_filename u ->
        path_join SOUND_DIR (filename old) <> MAP_FILE ->
        disk (st r.1) !! path_join SOUND_DIR (filename old)
          = disk (st c) !! path_join SOUND_DIR (filename old))).
Proof.
  split; [intros i p; by apply step_disk|]. split; [intros i; by apply step_disk|].
  intros f n emoji uuid w1 w2 Hw Hn u r.
  assert (Hd1 : forall w p, p <> u_filepath u ->
            fs_writeFile (u_filepath u) (Raw (u_buffer u)) w (disk (st c)) !! p
            = disk (st c) !! p).
  { intros [] p Hp; cbn [fs_writeFile]; [|done|]; by rewrite lookup_insert_ne. }
  assert (Hd2 : forall data w (d : Disk) p, p <> MAP_FILE ->
            fs_writeFile MAP_FILE data w d !! p = d !! p).
  { intros data [] d p Hp; cbn [fs_writeFile]; [|done|]; by rewrite lookup_insert_ne. }
  assert (Hothers : forall p, p <> u_filepath u -> p <> MAP_FILE ->
            disk (st r.1) !! p = disk (st c) !! p).
  { intros p Hp Hm. subst r. rewrite (upload_call_valid c f n emoji uuid w1 w2 Hw Hn). fold u.
    destruct (write_ok w1) eqn:Hok; cbn [fst st].
    - unfold upload_after_save, saveMap_settled, upload_after_write. rewrite Hok.
      destruct (write_ok w2); cbn [fst disk set_disk set_soundMap];
        by rewrite Hd2, Hd1.
    - unfold upload_after_write. rewrite Hok. cbn [fst disk set_disk]. by apply Hd1. }
  split; [reflexivity|]. split; [|split; [exact Hothers|split; [|split]]].
  - subst r. rewrite (upload_call_valid c f n emoji uuid w1 w2 Hw Hn). fold u.
    unfold upload_after_write. by destruct (write_ok w1).
  - intros Hok Hm. destruct w1; try discriminate. subst r.
    rewrite (upload_call_valid c f n emoji uuid Written w2 Hw Hn). fold u.
    cbn [write_ok]. rewrite upload_after_write_ok. cbn [fst snd st].
    unfold upload_after_save, saveMap_settled.
    destruct (write_ok w2); cbn [fst disk soundMap set_disk set_soundMap];
      (split; [rewrite Hd2 by done; apply lookup_insert_eq|apply lookup_insert_eq]).
  - intros Hok. subst r. rewrite (upload_call_valid c f n emoji uuid w1 w2 Hw Hn). fold u.
    rewrite Hok. unfold upload_after_write. by rewrite Hok.
  - intros old Hold Hne Hm. apply Hothers; [|done].
    unfold u, upload_k, path_join. cbn [u_filepath u_filename] in *.
    intros E. apply Hne. by repeat apply (inj (String.append _)) in E.
Qed.

Lemma no_sound_file_is_deleted_witness :
  waiting demo = [] /\ "siren" <> "" /\ soundMap (st demo) !! "siren" = Some siren /\
  filename siren <> u_filename (upload_k demo (mkFile ".ogg" []) "siren" None "0000") /\
  path_join SOUND_DIR (filename siren) <> MAP_FILE /\
  write_ok Written = true /\
  u_filepath (upload_k demo (mkFile ".ogg" []) "siren" None "0000") <> MAP_FILE /\
  disk (st (upload_call (Some (mkFile ".ogg" [])) (Some "siren") None "0000"
              Written Written demo).1) !! path_join SOUND_DIR (filename siren)
    = disk (st demo) !! path_join SOUND_DIR (filename siren) /\
  disk (st (upload_call (Some (mkFile ".ogg" [])) (Some "siren") None "0000"
              Written Written demo).1) !! "sounds/0000.ogg"
    = Some (Whole (Raw [])) /\
  soundMap (st (upload_call (Some (mkFile ".ogg" [])) (Some "siren") None "0000"
                  Written Written demo).1) !! "siren"
    = Some (mkClip "0000.ogg" "").
Proof.
  assert (H1 : waiting demo = []) by by_running.
  assert (H2 : "siren" <> "") by discriminate.
  assert (H3 : soundMap (st demo) !! "siren" = Some siren) by by_running.
  assert (H4 : filename siren
               <> u_filename (upload_k demo (mkFile ".ogg" []) "siren" None "0000"))
    by (vm_compute; discriminate).
  assert (H5 : path_join SOUND_DIR (filename siren) <> MAP_FILE) by (vm_compute; discriminate).
  assert (H6 : write_ok Written = true) by reflexivity.
  assert (H7 : u_filepath (upload_k demo (mkFile ".ogg" []) "siren" None "0000") <> MAP_FILE)
    by (vm_compute; discriminate).
  repeat (split; [assumption|]).
  destruct (proj2 (proj2 (no_sound_file_is_deleted demo))
              (mkFile ".ogg" []) "siren" None "0000" Written Written H1 H2)
    as (_ & _ & _ & Hnew & _ & Hold).
  split; [exact (Hold siren H3 H4 H5)|]. exact (Hnew H6 H7).
Defined.

(** ** The scenarios of the specification, run on the model *)

(** With an empty registry, [play siren] is answered 404 and nothing
    changes. *)
Example scenario_empty_registry :
  play_call "siren" (boot ∅) =
    (mkConfig (st (boot ∅)) [] 1,
     [Respond 0 (ResJson 404 (BError "Sound key 'siren' not found"))]).
Proof. by_running. Qed.

(** An upload of [siren] with an emoji and a valid file: the lookup finds
    the clip under the generated file name, the file is on disk, and the
    subscriber is sent a registry that lists it. *)
Example scenario_upload :
  let r := run [WsConnect;
                ReqUpload (Some (mkFile ".mp3" [])) (Some "siren") (Some "!") "0000";
                IoDone 0 Written; IoDone 0 Written] (boot ∅) in
  soundMap (st r.1) !! "siren" = Some (mkClip "0000.mp3" "!") /\
  is_Some (disk (st r.1) !! "sounds/0000.mp3") /\
  r.2 !! 4 = Some (Broadcast [0] (<["siren" := mkClip "0000.mp3" "!"]> ∅)) /\
  r.2 !! 5 = Some (Respond 0 (ResRedirect "/")).
Proof. cbv zeta. split; [by_running|]. split; [eexists; by_running|]. split; by_running. Qed.

(** A registry entry whose file was removed behind the server's back:
    [play siren] is answered 404 and the slot stays idle. *)
Example scenario_file_missing :
  (step (IoDone 0 Written) demo_orphan_play).2 =
    [Respond 0 (ResJson 404 (BError "File 'siren.mp3' does not exist"))] /\
  slot_idle (st (step (IoDone 0 Written) demo_orphan_play).1).
Proof. split; [by_running|split; by_running]. Qed.

(** [play siren] is accepted and the decoder plays out: when the player
    turns Idle the slot is idle again, and no decoder is left active. *)
Example scenario_plays_out :
  let r := run [ReqPlay "siren"; IoDone 0 Written; Idle] demo in
  r.2 !! 4 = Some (Respond 0 (ResJson 200 (BStatus "Playing"))) /\
  slot_idle (st r.1) /\ playerResource (st r.1) = None /\
  active_handles (st r.1) = [].
Proof. cbv zeta. split; [by_running|]. split; [split; by_running|]. split; by_running. Qed.

(** * More of the handlers *)

(** ** Uploads: validation, failure, restart *)

(** X1.  An upload without a file, without a name or with the empty name
    is answered 400 and leaves the whole state, disk included, as it was;
    an upload with a file and a non-empty name is never answered 400. *)
Theorem invalid_upload_changes_nothing (c : Config) (file : option UploadedFile)
    (name emoji : option string) (uuid : string) (w1 w2 : WriteOutcome) :
  waiting c = [] ->
  let r := upload_call file name emoji uuid w1 w2 c in
  let bad := Respond (nextReq c) (ResJson 400 (BError "Missing file or name")) in
  (file = None \/ name = None \/ name = Some "" ->
     r = (mkConfig (st c) [] (S (nextReq c)), [bad])) /\
  (bad ∈ r.2 -> file = None \/ name = None \/ name = Some "").
Proof.
  intros Hw r bad. subst r. split.
  - intros Hbad. eapply upload_call_invalid; [done|].
    unfold upload_request.
    destruct file as [f|]; [|done]. destruct name as [n|]; [|done].
    destruct (decide (n = "")) as [->|Hn]; [done|].
    destruct Hbad as [?|[?|[= ?]]]; done.
  - intros Hin. destruct file as [f|]; [|by left]. destruct name as [n|]; [|by right; left].
    destruct (decide (n = "")) as [->|Hn]; [by right; right|]. exfalso.
    rewrite (upload_call_valid c f n emoji uuid w1 w2 Hw Hn) in Hin.
    unfold upload_after_write, upload_after_save in Hin.
    destruct (write_ok w1); cbn [fst snd] in Hin; [destruct (write_ok w2); cbn [fst snd app] in Hin|];
      repeat (apply elem_of_cons in Hin as [Hin|Hin]; [discriminate|]);
      by apply elem_of_nil in Hin.
Qed.

Lemma invalid_upload_changes_nothing_witness :
  waiting demo = [] /\ (@None UploadedFile = None \/ Some "bell" = None \/ Some "bell" = Some "") /\
  upload_call None (Some "bell") None "0000" Written Written demo =
    (mkConfig (st demo) [] (S (nextReq demo)),
     [Respond (nextReq demo) (ResJson 400 (BError "Missing file or name"))]).
Proof.
  assert (H1 : waiting demo = []) by by_running.
  assert (H2 : @None UploadedFile = None \/ Some "bell" = None \/ Some "bell" = Some "")
    by (left; reflexivity).
  split; [exact H1|]. split; [exact H2|].
  exact (proj1 (invalid_upload_changes_nothing demo None (Some "bell") None "0000"
                  Written Written H1) H2).
Defined.

(** X2.  When the write of the sound file fails, the upload is answered
    500 after the failure has been logged, the registry keeps its entries,
    no snapshot is written and nobody is notified; on disk nothing but the
    path of the new file can have changed. *)
Theorem failed_sound_write_keeps_registry (c : Config) (f : UploadedFile)
    (n : string) (emoji : option string) (uuid : string) (w1 w2 : WriteOutcome) :
  waiting c = [] -> n <> "" -> write_ok w1 = false ->
  let u := upload_k c f n emoji uuid in
  let r := upload_call (Some f) (Some n) emoji uuid w1 w2 c in
  r.2 = [FsWrite (u_filepath u) (Raw (f_buffer f)) w1; Console LSaveFileFailed;
         Respond (nextReq c) (ResJson 500 (BError "Failed to save file"))] /\
  soundMap (st r.1) = soundMap (st c) /\
  (forall p, p <> u_filepath u -> disk (st r.1) !! p = disk (st c) !! p) /\
  same_slot (st c) (st r.1) /\ wsClients (st r.1) = wsClients (st c) /\
  waiting r.1 = [].
Proof.
  intros Hw Hn Hok u r. subst r.
  rewrite (upload_call_valid c f n emoji uuid w1 w2 Hw Hn). fold u.
  rewrite Hok. unfold upload_after_write. rewrite Hok. cbn [fst snd st waiting].
  split; [reflexivity|]. split; [reflexivity|]. split; [|by repeat split].
  intros p Hp. cbn [disk set_disk].
  destruct w1; cbn [fs_writeFile]; [discriminate|done|by rewrite lookup_insert_ne].
Qed.

Lemma failed_sound_write_keeps_registry_witness :
  waiting demo = [] /\ "bell" <> "" /\ write_ok (FailedTorn 2) = false /\
  soundMap (st (upload_call (Some (mkFile ".wav" [])) (Some "bell") None "0000"
                  (FailedTorn 2) Written demo).1) = soundMap (st demo).
Proof.
  assert (H1 : waiting demo = []) by by_running.
  assert (H2 : "bell" <> "") by discriminate.
  assert (H3 : write_ok (FailedTorn 2) = false) by reflexivity.
  split; [exact H1|]. split; [exact H2|]. split; [exact H3|].
  exact (proj1 (proj2 (failed_sound_write_keeps_registry demo (mkFile ".wav" []) "bell"
                         None "0000" (FailedTorn 2) Written H1 H2 H3))).
Defined.

(** X3.  After an upload both of whose writes completed, a restart on the
    disk as it is gives back exactly what the registry in memory lists,
    whatever the snapshot file held before.  That includes the new entry,
    unless its name is [__proto__]: such an entry is the object's prototype
    and no property of its own, the snapshot leaves it out and the restart
    has lost it. *)
Theorem restart_after_upload (c : Config) (f : UploadedFile) (n : string)
    (emoji : option string) (uuid : string) :
  waiting c = [] -> n <> "" ->
  let u := upload_k c f n emoji uuid in
  let r := upload_call (Some f) (Some n) emoji uuid Written Written c in
  soundMap (st (boot (disk (st r.1)))) = listed (soundMap (st r.1)) /\
  soundMap (st r.1) !! n = Some (mkClip (u_filename u) (js_or emoji "")) /\
  (n <> "__proto__" ->
   soundMap (st (boot (disk (st r.1)))) !! n
     = Some (mkClip (u_filename u) (js_or emoji ""))) /\
  (n = "__proto__" -> soundMap (st (boot (disk (st r.1)))) !! n = None).
Proof.
  intros Hw Hn u r. subst r.
  rewrite (upload_call_valid c f n emoji uuid Written Written Hw Hn). fold u.
  cbn [write_ok]. rewrite upload_after_write_ok. cbn [fst snd st].
  unfold upload_after_save, saveMap, saveMap_settled, boot, loadMap.
  cbn [write_ok fst st soundMap disk set_disk set_soundMap fs_writeFile].
  rewrite lookup_insert_eq. split; [reflexivity|].
  split; [apply lookup_insert_eq|]. split.
  - intros Hp. rewrite listed_lookup_ne by done. apply lookup_insert_eq.
  - intros ->. apply listed_lookup_proto.
Qed.

Lemma restart_after_upload_witness :
  waiting demo = [] /\ "bell" <> "" /\ "bell" <> "__proto__" /\
  soundMap (st (boot (disk (st (upload_call (Some (mkFile ".wav" [])) (Some "bell") None
                                  "0000" Written Written demo).1)))) !! "bell"
    = Some (mkClip "0000.wav" "").
Proof.
  assert (H1 : waiting demo = []) by by_running.
  assert (H2 : "bell" <> "") by discriminate.
  assert (H3 : "bell" <> "__proto__") by discriminate.
  split; [exact H1|]. split; [exact H2|]. split; [exact H3|].
  exact (proj1 (proj2 (proj2
    (restart_after_upload demo (mkFile ".wav" []) "bell" None "0000" H1 H2))) H3).
Defined.

(** X4.  When the sound file was written but the snapshot write failed
    before touching the snapshot file, the server goes on with the new
    entry in memory, but a restart brings back the registry of the old
    snapshot; the uploaded bytes stay on disk under the generated name. *)
Theorem upload_lost_on_restart (c : Config) (f : UploadedFile) (n : string)
    (emoji : option string) (uuid : string) :
  waiting c = [] -> n <> "" ->
  let u := upload_k c f n emoji uuid in
  u_filepath u <> MAP_FILE ->
  let r := upload_call (Some f) (Some n) emoji uuid Written FailedClean c in
  soundMap (st r.1) !! n = Some (mkClip (u_filename u) (js_or emoji "")) /\
  soundMap (st (boot (disk (st r.1)))) = loadMap (disk (st c)) /\
  disk (st r.1) !! u_filepath u = Some (Whole (Raw (f_buffer f))).
Proof.
  intros Hw Hn u Hp r. subst r.
  rewrite (upload_call_valid c f n emoji uuid Written FailedClean Hw Hn). fold u.
  cbn [write_ok]. rewrite upload_after_write_ok. cbn [fst snd st].
  unfold upload_after_save, saveMap, saveMap_settled, boot, loadMap.
  cbn [write_ok fst st soundMap disk set_disk set_soundMap fs_writeFile].
  split; [apply lookup_insert_eq|]. split; [|apply lookup_insert_eq].
  rewrite lookup_insert_ne by done. reflexivity.
Qed.

Lemma upload_lost_on_restart_witness :
  waiting demo = [] /\ "bell" <> "" /\
  u_filepath (upload_k demo (mkFile ".wav" []) "bell" None "0000") <> MAP_FILE /\
  soundMap (st (boot (disk (st (upload_call (Some (mkFile ".wav" [])) (Some "bell") None
                                  "0000" Written FailedClean demo).1))))
    = loadMap (disk (st demo)).
Proof.
  assert (H1 : waiting demo = []) by by_running.
  assert (H2 : "bell" <> "") by discriminate.
  assert (H3 : u_filepath (upload_k demo (mkFile ".wav" []) "bell" None "0000") <> MAP_FILE)
    by (vm_compute; discriminate).
  split; [exact H1|]. split; [exact H2|]. split; [exact H3|].
  exact (proj1 (proj2 (upload_lost_on_restart demo (mkFile ".wav" []) "bell" None "0000"
                         H1 H2 H3))).
Defined.

(** ** What playback leaves alone *)

Lemma resume_plays_outside ks : forall s e,
  outside (foldl resume_play (s, e) ks).1 = outside s.
Proof.
  induction ks as [|k ks IH]; intros s e; [done|].
  cbn [foldl]. unfold resume_play at 2. cbn [play_start]. by rewrite IH.
Qed.

Lemma player_idle_outside s : outside (player_idle s).1 = outside s.
Proof.
  destruct (playerResource s) as [r|] eqn:Hr.
  - rewrite (player_idle_spec _ _ Hr), resume_plays_outside.
    by destruct (existsb is_OnFinished (idleListeners s)).
  - unfold player_idle. by rewrite Hr.
Qed.

Lemma play_after_stat_outside k s : outside (play_after_stat k s).1 = outside s.
Proof.
  unfold play_after_stat, stopCurrentPlayback.
  destruct (disk s !! k_soundPath k); [|done].
  destruct (connection s); [|done]. cbn [negb].
  destruct (isPlaying s); [|done].
  destruct (currentProcess s) as [h|]; [destruct (killed h s)|];
    cbn [playerResource set_currentProcess kill set_procs];
    by destruct (playerResource s).
Qed.

Lemma stop_request_outside rid s : outside (stop_request rid s).1 = outside s.
Proof. unfold stop_request. by destruct (currentProcess s). Qed.

(** Every step either leaves the registry as it is, or is the settling of
    a successful sound-file write, which puts that upload's entry in. *)
Lemma step_soundMap i c :
  soundMap (st (step i c).1) = soundMap (st c) \/
  exists n u, i = IoDone n Written /\ waiting c !! n = Some (AwaitSoundWrite u) /\
    soundMap (st (step i c).1)
      = <[u_name u := mkClip (u_filename u) (js_or (u_emoji u) "")]> (soundMap (st c)).
Proof.
  destruct i as [sound| |file name em uuid| |n w| |h| |n|guild channel entered];
    unfold step.
  - left. by destruct (play_request _ _ _).
  - left. pose proof (stop_request_outside (nextReq c) (st c)) as H.
    destruct (stop_request _ _). by injection H.
  - left. by destruct (upload_request _ _ _ _ _).
  - by left.
  - destruct (waiting c !! n) as [[k|u|u data]|] eqn:Hx; cbn [resume]; [| | |by left].
    + left. pose proof (play_after_stat_outside k (st c)) as H.
      destruct (play_after_stat _ _). by injection H.
    + destruct w; [right; by exists n, u|by left|by left].
    + left. unfold upload_after_save. by destruct (write_ok w).
  - left. pose proof (player_idle_outside (st c)) as H.
    destruct (player_idle _). by injection H.
  - left. unfold proc_error. by destruct (decide _).
  - by left.
  - by left.
  - left. by unfold client_ready; destruct (readyPending _), (guild && channel).
Qed.

(** X5.  Nothing removes a clip from the registry: a name that is in the
    map stays in it through every execution, whatever arrives, so a play of
    it is never again answered "not found" while the server runs.  The map
    only ever changes when the sound-file write of an upload completes. *)
Theorem registry_never_forgets (c : Config) (ins : list Input) (a : string) :
  is_Some (soundMap (st c) !! a) ->
  is_Some (soundMap (st (run ins c).1) !! a) /\
  forall rid, (step (ReqPlay a) (run ins c).1).2
    <> [Respond rid (ResJson 404 (BError ("Sound key '" +:+ a +:+ "' not found")))].
Proof.
  intros Ha.
  assert (H : is_Some (soundMap (st (run ins c).1) !! a)).
  { revert c Ha. induction ins as [|i ins IH]; intros c Ha; [done|].
    rewrite run_cons. cbn [fst]. apply IH.
    destruct (step_soundMap i c) as [->|(n & u & _ & _ & ->)]; [done|].
    destruct (decide (u_name u = a)) as [->|Hne].
    - rewrite lookup_insert_eq. eauto.
    - by rewrite lookup_insert_ne. }
  split; [exact H|]. intros rid. destruct H as [d Hd].
  rewrite (step_ReqPlay_some _ _ _ Hd). cbn [snd]. discriminate.
Qed.

Lemma registry_never_forgets_witness :
  is_Some (soundMap (st demo) !! "siren") /\
  is_Some (soundMap (st (run [ReqUpload (Some (mkFile ".wav" [])) (Some "siren") None "0000";
                              IoDone 0 Written; IoDone 0 FailedClean; ReqStop] demo).1)
             !! "siren").
Proof.
  assert (H : is_Some (soundMap (st demo) !! "siren")) by (eexists; by_running).
  split; [exact H|].
  exact (proj1 (registry_never_forgets demo _ "siren" H)).
Defined.

(** ** The voice connection *)

(** What holds of every event of a play's start holds of every event the
    player's Idle emission produces. *)
Lemma resume_plays_Forall (P : Event -> Prop) ks :
  (forall k s, Forall P (play_start k s).2) ->
  forall s e, Forall P e -> Forall P (foldl resume_play (s, e) ks).2.
Proof.
  intros HP. induction ks as [|k ks IH]; intros s e He; [done|].
  cbn [foldl]. pose proof (HP k s) as Hk. unfold resume_play at 2.
  destruct (play_start k s) as [s' e']. apply IH. apply Forall_app. by split.
Qed.

Lemma finished_logs_Forall (P : Event -> Prop) L :
  (forall f, P (Console (LFinished f))) -> Forall P (finished_logs L).
Proof. intros HP. induction L as [|[f|k] L IH]; cbn; auto. Qed.

Lemma player_idle_Forall (P : Event -> Prop) s :
  (forall r, P (PlayerIdle r)) -> (forall f, P (Console (LFinished f))) ->
  (forall k s, Forall P (play_start k s).2) ->
  Forall P (player_idle s).2.
Proof.
  intros H1 H2 H3. destruct (playerResource s) as [r|] eqn:Hr.
  - rewrite (player_idle_spec _ _ Hr). apply resume_plays_Forall; [done|].
    constructor; [done|]. by apply finished_logs_Forall.
  - unfold player_idle. rewrite Hr. constructor.
Qed.

Lemma step_connected i c :
  connection (st c) = true ->
  connection (st (step i c).1) = true /\
  Forall (fun e => ~ not_connected e) (step i c).2.
Proof.
  intros Hc.
  assert (Hno : forall e, (forall rid, e <> Respond rid (ResJson 500 (BError "Bot not connected")))
                          -> ~ not_connected e).
  { intros e He [rid ->]. by eapply He. }
  assert (Hps : forall k s, Forall (fun e => ~ not_connected e) (play_start k s).2).
  { intros k s. cbn. repeat constructor; apply Hno; discriminate. }
  destruct i as [sound| |file name em uuid| |n w| |h| |n|guild channel entered];
    unfold step.
  - unfold play_request. case_read c sound; cbn [fst snd st]; split; try done;
      repeat constructor; apply Hno; discriminate.
  - unfold stop_request.
    destruct (currentProcess (st c)); cbn; (split; [done|]);
      repeat constructor; apply Hno; discriminate.
  - destruct (upload_request _ _ _ _ _) as [e|u] eqn:E; cbn [fst snd st]; split; try done.
    rewrite (upload_request_invalid _ _ _ _ _ _ E). repeat constructor; apply Hno; discriminate.
  - cbn [fst snd st]. split; [done|]. repeat constructor; apply Hno; discriminate.
  - destruct (waiting c !! n) as [[k|u|u data]|] eqn:Hx; cbn [resume]; [| | |by split].
    + pose proof (play_after_stat_outside k (st c)) as H.
      assert (He : Forall (fun e => ~ not_connected e) (play_after_stat k (st c)).2).
      { unfold play_after_stat, stopCurrentPlayback. rewrite Hc. cbn [negb].
        destruct (disk (st c) !! k_soundPath k); [|repeat constructor; apply Hno; discriminate].
        destruct (isPlaying (st c)).
        2:{ pose proof (Hps k (st c)). destruct (play_start k (st c)).
            constructor; [apply Hno; discriminate|done]. }
        destruct (currentProcess (st c)) as [h|]; [destruct (killed h (st c))|];
          cbn [playerResource set_currentProcess kill set_procs];
          destruct (playerResource (st c));
          try (match goal with |- context [play_start ?k ?s] =>
                 pose proof (Hps k s); destruct (play_start k s) end);
          cbn [fst snd app]; repeat (constructor; [apply Hno; discriminate|]); done. }
      destruct (play_after_stat k (st c)) as [s' e]. cbn [fst snd st] in *.
      split; [|done]. injection H as _ _ -> _. done.
    + unfold upload_after_write. destruct (write_ok w); cbn [fst snd st connection set_soundMap set_disk];
        (split; [done|]); repeat constructor; apply Hno; discriminate.
    + unfold upload_after_save, saveMap_settled.
      destruct (write_ok w); cbn [fst snd st connection set_disk];
        (split; [done|]); repeat constructor; apply Hno; discriminate.
  - pose proof (player_idle_outside (st c)) as H.
    pose proof (player_idle_Forall (fun e => ~ not_connected e) (st c)) as He.
    destruct (player_idle (st c)) as [s' e]. cbn [fst snd st] in *.
    split; [by injection H as _ _ -> _|].
    apply He; [intros r; apply Hno; discriminate|intros f; apply Hno; discriminate|done].
  - unfold proc_error. destruct (decide _); cbn [fst snd st]; split; try done.
    repeat constructor; apply Hno; discriminate.
  - cbn [fst snd st]. split; [done|]. repeat constructor; apply Hno; discriminate.
  - cbn [fst snd st]. split; [done|]. repeat constructor; apply Hno; discriminate.
  - unfold client_ready; destruct (readyPending _), (guild && channel); cbn [fst snd st]; (split; [done|]);
      repeat constructor; apply Hno; discriminate.
Qed.

(** X6.  The ['ready'] listener is registered with [once]: the first
    ['ready'] event runs it, and it sets the connection as soon as a guild
    and its voice channel are found, also when the channel was never
    entered; any later ['ready'] event runs nothing.  No handler ever
    clears the connection again: once it is set, through every execution,
    no play is answered "Bot not connected". *)
Theorem connection_is_for_good (c : Config) :
  (readyPending (st c) = true ->
   forall entered,
     connection (st (step (ClientReady true true entered) c).1) = true /\
     readyPending (st (step (ClientReady true true entered) c).1) = false) /\
  (readyPending (st c) = false ->
   forall guild channel entered, step (ClientReady guild channel entered) c = (c, [])) /\
  (connection (st c) = true ->
   forall ins, connection (st (run ins c).1) = true /\
               Forall (fun e => ~ not_connected e) (run ins c).2).
Proof.
  split; [|split].
  - intros Hp entered. unfold step, client_ready. by rewrite Hp.
  - intros Hp guild channel entered. unfold step, client_ready. rewrite Hp.
    by destruct c.
  - intros Hc ins. revert c Hc.
    induction ins as [|i ins IH]; intros c Hc; [by split|].
    rewrite run_cons. cbn [fst snd].
    destruct (step_connected i c Hc) as [Hc' He].
    destruct (IH _ Hc') as [Hc'' He'']. split; [done|]. apply Forall_app. by split.
Qed.

Lemma connection_is_for_good_witness :
  readyPending (st (boot demo_disk)) = true /\
  connection (st (step (ClientReady true true false) (boot demo_disk)).1) = true /\
  readyPending (st demo) = false /\
  step (ClientReady false false false) demo = (demo, []) /\
  connection (st demo) = true /\
  connection (st (run demo_session demo).1) = true.
Proof.
  assert (H0 : readyPending (st (boot demo_disk)) = true) by by_running.
  assert (H1 : readyPending (st demo) = false) by by_running.
  assert (H : connection (st demo) = true) by by_running.
  split; [exact H0|].
  split; [exact (proj1 (proj1 (connection_is_for_good (boot demo_disk)) H0 false))|].
  split; [exact H1|].
  split; [exact (proj1 (proj2 (connection_is_for_good demo)) H1 false false false)|].
  split; [exact H|].
  exact (proj1 (proj2 (proj2 (connection_is_for_good demo)) H demo_session)).
Defined.

Lemma step_cold i c :
  cold c -> joins i = false ->
  cold (step i c).1 /\
  spawned (step i c).2 = [] /\ kills (step i c).2 = [] /\ playing (step i c).2 = [].
Proof.
  intros (Hc & Hp & Hcp & Hr & HL) Hj.
  destruct i as [sound| |file name em uuid| |n w| |h| |n|guild channel entered];
    unfold step.
  - unfold play_request. by case_read c sound.
  - unfold stop_request. rewrite Hcp. cbn. by repeat split.
  - destruct (upload_request _ _ _ _ _) as [e|u] eqn:E; cbn [fst snd]; [|done].
    by rewrite (upload_request_invalid _ _ _ _ _ _ E).
  - done.
  - destruct (waiting c !! n) as [[k|u|u data]|] eqn:Hx; cbn [resume]; [| | |done].
    + unfold play_after_stat. rewrite Hc. cbn [negb].
      by destruct (disk (st c) !! k_soundPath k).
    + unfold upload_after_write. by destruct (write_ok w).
    + unfold upload_after_save. by destruct (write_ok w).
  - unfold player_idle. by rewrite Hr.
  - unfold proc_error, active_handles. rewrite Hp.
    destruct (decide _) as [Hin|]; [|done]. by apply elem_of_nil in Hin.
  - done.
  - done.
  - unfold client_ready. destruct (readyPending (st c)); [|done].
    destruct guild, channel; try discriminate; done.
Qed.

(** X7.  Until the ['ready'] handler has found a guild and its voice
    channel, the server never starts, signals or has a decoder: whatever
    requests and events arrive, no child is spawned or killed, no play is
    answered Playing, and the player is left alone. *)
Theorem no_decoder_before_join (d : Disk) (ins : list Input) :
  forallb (fun i => negb (joins i)) ins = true ->
  cold (run ins (boot d)).1 /\
  spawned (run ins (boot d)).2 = [] /\ kills (run ins (boot d)).2 = [] /\
  playing (run ins (boot d)).2 = [].
Proof.
  assert (Hgen : forall c, cold c -> forallb (fun i => negb (joins i)) ins = true ->
            cold (run ins c).1 /\ spawned (run ins c).2 = [] /\
            kills (run ins c).2 = [] /\ playing (run ins c).2 = []).
  { induction ins as [|i ins IH]; intros c Hc Hall; [done|].
    cbn [forallb] in Hall. apply andb_true_iff in Hall as [Hi Hall].
    apply negb_true_iff in Hi.
    destruct (step_cold i c Hc Hi) as (Hc' & E1 & E2 & E3).
    destruct (IH _ Hc' Hall) as (Hc'' & F1 & F2 & F3).
    rewrite run_cons. cbn [fst snd]. split; [done|].
    unfold spawned, kills, playing in *. rewrite !omap_app.
    by rewrite E1, E2, E3, F1, F2, F3. }
  intros Hall. apply Hgen; [|done]. by repeat split.
Qed.

Lemma no_decoder_before_join_witness :
  forallb (fun i => negb (joins i))
    [ClientReady true false true; ReqPlay "siren"; IoDone 0 Written; ReqStop; Idle;
     ProcError 0] = true /\
  spawned (run [ClientReady true false true; ReqPlay "siren"; IoDone 0 Written; ReqStop;
                Idle; ProcError 0] (boot demo_disk)).2 = [].
Proof.
  assert (H : forallb (fun i => negb (joins i))
    [ClientReady true false true; ReqPlay "siren"; IoDone 0 Written; ReqStop; Idle;
     ProcError 0] = true) by reflexivity.
  split; [exact H|].
  exact (proj1 (proj2 (no_decoder_before_join demo_disk _ H))).
Defined.

(** ** Requests and their answers *)

Lemma answered_app t1 t2 : answered (t1 ++ t2) = answered t1 ++ answered t2.
Proof. unfold answered. apply omap_app. Qed.

Lemma finished_logs_answered L : answered (finished_logs L) = [].
Proof. induction L as [|[f|k] L IH]; cbn; auto. Qed.

Lemma resume_plays_account ks : forall s e,
  answered (foldl resume_play (s, e) ks).2 = answered e ++ map k_rid ks /\
  stopped_ks (idleListeners (foldl resume_play (s, e) ks).1) = stopped_ks (idleListeners s).
Proof.
  induction ks as [|k ks IH]; intros s e; [by rewrite app_nil_r|].
  cbn [foldl]. unfold resume_play at 2 4. cbn [play_start].
  destruct (IH (play_start k s).1 (e ++ (play_start k s).2)) as [E1 E2].
  cbn [play_start fst snd] in E1, E2. rewrite E1, E2. split.
  - rewrite answered_app. cbn. by rewrite <- app_assoc.
  - cbn. rewrite stopped_ks_app. cbn. by rewrite app_nil_r.
Qed.

Lemma player_idle_account s :
  answered (player_idle s).2
    ++ map k_rid (stopped_ks (idleListeners (player_idle s).1))
  = map k_rid (stopped_ks (idleListeners s)).
Proof.
  destruct (playerResource s) as [r|] eqn:Hr.
  - rewrite (player_idle_spec _ _ Hr).
    match goal with |- context [foldl resume_play (?s1, ?e1) ?ks] =>
      destruct (resume_plays_account ks s1 e1) as [-> ->] end.
    change (PlayerIdle r :: finished_logs (idleListeners s))
      with ([PlayerIdle r] ++ finished_logs (idleListeners s)).
    rewrite answered_app, finished_logs_answered.
    change (answered [PlayerIdle r]) with (@nil nat).
    destruct (existsb is_OnFinished (idleListeners s)); cbn; by rewrite app_nil_r.
  - unfold player_idle. by rewrite Hr.
Qed.

Lemma play_after_stat_account k s :
  answered (play_after_stat k s).2
    ++ map k_rid (stopped_ks (idleListeners (play_after_stat k s).1))
  ≡ₚ k_rid k :: map k_rid (stopped_ks (idleListeners s)).
Proof.
  unfold play_after_stat, stopCurrentPlayback.
  destruct (disk s !! k_soundPath k); [|done].
  destruct (connection s); [|done]. cbn [negb].
  destruct (isPlaying s).
  2:{ cbn. rewrite stopped_ks_app. cbn. by rewrite app_nil_r. }
  destruct (currentProcess s) as [h|]; [destruct (killed h s)|];
    cbn [playerResource set_currentProcess kill set_procs];
    destruct (playerResource s); cbn; rewrite stopped_ks_app; cbn;
    rewrite ?app_nil_r; try done;
    rewrite map_app; cbn; symmetry; apply Permutation_cons_append.
Qed.

Lemma resume_account x w s :
  answered (resume x w s).1.2
    ++ map susp_rid (option_list (resume x w s).2)
    ++ map k_rid (stopped_ks (idleListeners (resume x w s).1.1))
  ≡ₚ susp_rid x :: map k_rid (stopped_ks (idleListeners s)).
Proof.
  destruct x as [k|u|u data]; cbn [resume susp_rid].
  - pose proof (play_after_stat_account k s) as H.
    destruct (play_after_stat k s) as [s' e]. done.
  - unfold upload_after_write. destruct (write_ok w); cbn; [|done].
    apply Permutation_refl.
  - unfold upload_after_save. destruct (write_ok w); done.
Qed.

Ltac perm_one :=
  first [ apply Permutation_cons_append
        | symmetry; apply Permutation_cons_append
        | reflexivity ].

Lemma step_account i c :
  exists news,
    nextReq (step i c).1 = nextReq c + length news /\
    news = seq (nextReq c) (length news) /\
    answered (step i c).2 ++ pending (step i c).1 ≡ₚ pending c ++ news.
Proof.
  unfold pending.
  destruct i as [sound| |file name em uuid| |n w| |h| |n|guild channel entered];
    unfold step.
  - exists [nextReq c]. split; [by destruct (play_request _ _ _); cbn; lia|]. split; [done|].
    unfold play_request. case_read c sound; cbn [fst snd st waiting].
    + rewrite map_app. cbn. rewrite <- !app_assoc. cbn.
      apply Permutation_app_head; perm_one.
    + cbn. perm_one.
    + cbn. perm_one.
  - exists [nextReq c]. unfold stop_request.
    destruct (currentProcess (st c)); cbn; (split; [lia|]); (split; [done|]);
      perm_one.
  - exists [nextReq c].
    destruct (upload_request _ _ _ _ _) as [e|u] eqn:E;
      cbn [fst snd st waiting nextReq length];
      (split; [lia|]); (split; [done|]).
    + rewrite (upload_request_invalid _ _ _ _ _ _ E). cbn. perm_one.
    + unfold upload_request in E.
      destruct file as [f|]; [|done]. destruct name as [nm|]; [|done].
      destruct (decide (nm = "")); [done|]. injection E as <-.
      rewrite map_app. cbn. rewrite <- !app_assoc. cbn.
      apply Permutation_app_head; perm_one.
  - exists [nextReq c]. cbn. split; [lia|]. split; [done|]. perm_one.
  - exists []. destruct (waiting c !! n) as [x|] eqn:Hx; cbn [length];
      [|cbn; split; [lia|]; split; [done|]; by rewrite app_nil_r].
    pose proof (resume_account x w (st c)) as H.
    destruct (resume x w (st c)) as [[s e] again]. cbn [fst snd st waiting nextReq] in *.
    split; [lia|]. split; [done|]. rewrite app_nil_r.
    rewrite (Permutation_map susp_rid (delete_Permutation _ _ _ Hx)).
    rewrite map_app. cbn [map].
    cbn [app]. rewrite Permutation_middle, <- H.
    set (D := map susp_rid (delete n (waiting c))).
    rewrite <- !app_assoc, (app_assoc (answered e) D), (Permutation_app_comm (answered e) D).
    by rewrite <- app_assoc.
  - exists []. pose proof (player_idle_account (st c)) as H.
    destruct (player_idle (st c)) as [s e]. cbn [fst snd st waiting nextReq length] in *.
    split; [lia|]. split; [done|]. rewrite app_nil_r.
    rewrite <- H. rewrite !app_assoc. apply Permutation_app_tail, Permutation_app_comm.
  - exists []. unfold proc_error. destruct (decide _); cbn; (split; [lia|]);
      (split; [done|]); by rewrite app_nil_r.
  - exists []. cbn. split; [lia|]. split; [done|]. by rewrite app_nil_r.
  - exists []. cbn. split; [lia|]. split; [done|]. by rewrite app_nil_r.
  - exists []. unfold client_ready; destruct (readyPending _), (guild && channel); cbn; (split; [lia|]); (split; [done|]);
      by rewrite app_nil_r.
Qed.

(** X8.  In every execution each request is accounted for exactly once:
    the requests answered so far (by a response or by the handler's
    rejection) together with the ones whose handler is still suspended are
    exactly the requests received.  So no request is answered twice, and
    once no handler is suspended every request has had its answer. *)
Theorem every_request_accounted (c : Config) (t : list Event) :
  Reach c t ->
  answered t ++ pending c ≡ₚ seq 0 (nextReq c) /\
  NoDup (answered t) /\
  (quiescent c = true -> answered t ≡ₚ seq 0 (nextReq c)).
Proof.
  intros HR.
  assert (H : answered t ++ pending c ≡ₚ seq 0 (nextReq c)).
  { induction HR as [d|c t i _ IH]; [done|].
    destruct (step_account i c) as (news & Hn & Hs & Hp).
    rewrite answered_app, <- app_assoc, Hp, app_assoc, IH, Hn, Hs.
    rewrite length_seq. by rewrite <- seq_app. }
  split; [exact H|]. split.
  - assert (Hnd : NoDup (answered t ++ pending c)) by (rewrite H; apply NoDup_seq).
    by apply NoDup_app in Hnd as [? _].
  - intros [Hw Ha]%quiescent_spec. apply awaiting_idle_stopped in Ha.
    unfold pending in H. rewrite Hw, Ha in H. cbn in H. by rewrite app_nil_r in H.
Qed.

Lemma every_request_accounted_witness :
  Reach demo_overlap.1 (demo_trace ++ demo_overlap.2) /\
  NoDup (answered (demo_trace ++ demo_overlap.2)).
Proof.
  assert (H : Reach demo_overlap.1 (demo_trace ++ demo_overlap.2)).
  { apply Reach_run. exact demo_reached_any. }
  split; [exact H|].
  exact (proj1 (proj2 (every_request_accounted _ _ H))).
Defined.

(** ** Children spawned and signalled *)

Lemma kills_app t1 t2 : kills (t1 ++ t2) = kills t1 ++ kills t2.
Proof. unfold kills. apply omap_app. Qed.

Lemma spawned_app t1 t2 : spawned (t1 ++ t2) = spawned t1 ++ spawned t2.
Proof. unfold spawned. apply omap_app. Qed.

Lemma playing_app t1 t2 : playing (t1 ++ t2) = playing t1 ++ playing t2.
Proof. unfold playing. apply omap_app. Qed.

Lemma killed_lt h s : killed h s = true -> h < length (procs s).
Proof.
  unfold killed. intros H. apply lookup_lt_is_Some.
  destruct (procs s !! h); [eauto|discriminate].
Qed.

Lemma killed_mark_done h r s : killed h (mark_done r s) = killed h s.
Proof.
  unfold killed, mark_done. cbn. destruct (decide (h = r)) as [->|Hne].
  - rewrite list_lookup_alter_eq. by destruct (procs s !! r).
  - by rewrite list_lookup_alter_ne by congruence.
Qed.

Lemma sig_frame s s' t e :
  signalled_ok s t ->
  length (procs s') = length (procs s) ->
  (forall h, killed h s' = killed h s) ->
  (forall h, currentProcess s' = Some h -> currentProcess s = Some h) ->
  spawned e = [] -> playing e = [] -> kills e = [] ->
  signalled_ok s' (t ++ e).
Proof.
  intros (H1 & H2 & H3 & H4 & H5) Hl Hk Hc E1 E2 E3. unfold signalled_ok.
  rewrite spawned_app, playing_app, kills_app, E1, E2, E3, !app_nil_r, Hl.
  repeat split; try done.
  - rewrite Hk. by apply H4.
  - rewrite Hk. by apply H4.
  - apply Hc, H5 in H as [? _]. done.
  - rewrite Hk. apply Hc in H. by apply H5 in H as [_ ?].
Qed.

Lemma sig_kill s s' t e h :
  signalled_ok s t ->
  currentProcess s = Some h ->
  procs s' = procs (kill h s) -> currentProcess s' = None ->
  spawned e = [] -> playing e = [] -> kills e = [h] ->
  signalled_ok s' (t ++ e).
Proof.
  intros (H1 & H2 & H3 & H4 & H5) Hc Hp Hn E1 E2 E3. unfold signalled_ok.
  destruct (H5 _ Hc) as [Hlt Hk].
  assert (Hl : length (procs s') = length (procs s)).
  { rewrite Hp. cbn. by rewrite length_alter. }
  assert (Hk' : forall h', killed h' s' = true <-> h' = h \/ killed h' s = true).
  { intros h'. unfold killed. rewrite Hp. cbn.
    destruct (decide (h' = h)) as [->|Hne].
    - rewrite list_lookup_alter_eq.
      destruct (lookup_lt_is_Some_2 _ _ Hlt) as [p ->]. cbn. tauto.
    - rewrite list_lookup_alter_ne by congruence. split; [auto|]. by intros [?|?]. }
  rewrite spawned_app, playing_app, kills_app, E1, E2, E3, !app_nil_r, Hl.
  repeat split; try done.
  - apply NoDup_app. repeat split; [done| |apply NoDup_singleton].
    intros x Hx ->%list_elem_of_singleton. apply H4 in Hx. congruence.
  - intros [Hx| ->%list_elem_of_singleton]%elem_of_app; apply Hk'; [|by left].
    right. by apply H4.
  - intros [->|Hx]%Hk'; apply elem_of_app; [right; by apply list_elem_of_singleton|].
    left. by apply H4.
  - congruence.
  - congruence.
Qed.

Lemma sig_spawn k s t :
  signalled_ok s t -> signalled_ok (play_start k s).1 (t ++ (play_start k s).2).
Proof.
  intros (H1 & H2 & H3 & H4 & H5). unfold signalled_ok, play_start.
  cbn [fst snd currentProcess procs set_idleListeners set_playerResource
       set_currentProcess set_procs set_isPlaying].
  assert (Hk : forall h, killed h
     (set_idleListeners (idleListeners s ++ [OnFinished (filename (k_soundData k))])
       (set_playerResource (Some (length (procs s)))
         (set_currentProcess (Some (length (procs s)))
           (set_procs (procs s ++ [mkProc (k_soundPath k) false false])
             (set_isPlaying true s))))) = killed h s).
  { intros h. unfold killed. cbn.
    destruct (decide (h < length (procs s))) as [Hlt|Hge].
    - by rewrite lookup_app_l.
    - rewrite lookup_app_r by lia. rewrite (lookup_ge_None_2 (procs s)) by lia.
      by destruct (h - length (procs s)) as [|[|]]. }
  rewrite spawned_app, playing_app, kills_app, length_app, !length_app. cbn.
  rewrite !app_nil_r, H1, H2. repeat split.
  - by rewrite Nat.add_1_r, seq_S.
  - done.
  - intros Hx. rewrite Hk. by apply H4.
  - rewrite Hk. apply H4.
  - injection H as <-. lia.
  - injection H as <-. rewrite Hk. destruct (killed (length (procs s)) s) eqn:E; [|done].
    apply killed_lt in E. lia.
Qed.

Lemma sig_stop_request rid s t :
  signalled_ok s t -> signalled_ok (stop_request rid s).1 (t ++ (stop_request rid s).2).
Proof.
  intros H. unfold stop_request. destruct (currentProcess s) as [h|] eqn:Hc; cbn [fst snd].
  - by eapply sig_kill.
  - by eapply sig_frame.
Qed.

Lemma sig_stopCurrentPlayback k s t :
  signalled_ok s t ->
  signalled_ok (stopCurrentPlayback k s).1.1 (t ++ (stopCurrentPlayback k s).1.2).
Proof.
  intros H. unfold stopCurrentPlayback.
  destruct (currentProcess s) as [h|] eqn:Hc; [destruct (killed h s) eqn:Hk|];
    cbn [playerResource set_currentProcess kill set_procs];
    destruct (playerResource s); cbn [fst snd];
    first [ by eapply sig_kill | by eapply sig_frame ].
Qed.

Lemma sig_play_after_stat k s t :
  signalled_ok s t ->
  signalled_ok (play_after_stat k s).1 (t ++ (play_after_stat k s).2).
Proof.
  intros H. unfold play_after_stat.
  destruct (disk s !! k_soundPath k); [|by eapply sig_frame].
  destruct (negb (connection s)); [by eapply sig_frame|].
  set (e0 := [Console (LPlayRequest (k_sound k) (filename (k_soundData k)))]).
  assert (H0 : signalled_ok s (t ++ e0)) by (by eapply sig_frame).
  destruct (isPlaying s).
  - pose proof (sig_stopCurrentPlayback k s _ H0) as H1.
    destruct (stopCurrentPlayback k s) as [[s1 e1] resolved]. cbn [fst snd] in H1.
    destruct resolved; cbn [fst snd].
    + pose proof (sig_spawn k s1 _ H1) as H2.
      destruct (play_start k s1) as [s2 e2]. cbn [fst snd] in *.
      by rewrite <- !app_assoc in H2.
    + by rewrite <- app_assoc in H1.
  - pose proof (sig_spawn k s _ H0) as H2.
    destruct (play_start k s) as [s2 e2]. cbn [fst snd] in *.
    by rewrite <- !app_assoc in H2.
Qed.

Lemma sig_resume_plays ks : forall s e t,
  signalled_ok s (t ++ e) ->
  signalled_ok (foldl resume_play (s, e) ks).1 (t ++ (foldl resume_play (s, e) ks).2).
Proof.
  induction ks as [|k ks IH]; intros s e t H; [done|].
  cbn [foldl]. unfold resume_play at 2 4.
  pose proof (sig_spawn k s _ H) as H2.
  destruct (play_start k s) as [s2 e2]. cbn [fst snd] in H2.
  apply IH. by rewrite app_assoc.
Qed.

Lemma sig_player_idle s t :
  signalled_ok s t -> signalled_ok (player_idle s).1 (t ++ (player_idle s).2).
Proof.
  intros H. destruct (playerResource s) as [r|] eqn:Hr.
  - rewrite (player_idle_spec _ _ Hr). apply sig_resume_plays.
    assert (Hk : forall h, killed h (mark_done r s) = killed h s).
    { intros h. unfold killed, mark_done. cbn.
      destruct (decide (h = r)) as [->|Hne].
      - rewrite list_lookup_alter_eq. by destruct (procs s !! r).
      - by rewrite list_lookup_alter_ne by congruence. }
    assert (Hq : spawned (PlayerIdle r :: finished_logs (idleListeners s)) = [] /\
                 playing (PlayerIdle r :: finished_logs (idleListeners s)) = [] /\
                 kills (PlayerIdle r :: finished_logs (idleListeners s)) = []).
    { cbn. induction (idleListeners s) as [|[f|k] L IH]; cbn; auto. }
    destruct Hq as (Q1 & Q2 & Q3).
    destruct (existsb is_OnFinished (idleListeners s));
      (eapply sig_frame; [exact H| | | |exact Q1|exact Q2|exact Q3]);
      cbn; rewrite ?length_alter; try done.
  - unfold player_idle. rewrite Hr. cbn. by rewrite app_nil_r.
Qed.

Lemma sig_step i c t :
  signalled_ok (st c) t -> signalled_ok (st (step i c).1) (t ++ (step i c).2).
Proof.
  intros H.
  destruct i as [sound| |file name em uuid| |n w| |h| |n|guild channel entered];
    unfold step.
  - unfold play_request. case_read c sound; cbn [fst snd st];
      by eapply sig_frame.
  - pose proof (sig_stop_request (nextReq c) (st c) t H) as H1.
    by destruct (stop_request (nextReq c) (st c)).
  - destruct (upload_request _ _ _ _ _) as [e|u] eqn:E; cbn [fst snd st].
    + rewrite (upload_request_invalid _ _ _ _ _ _ E). by eapply sig_frame.
    + by eapply sig_frame.
  - cbn [fst snd st]. by eapply sig_frame.
  - destruct (waiting c !! n) as [[k|u|u data]|]; cbn [resume].
    + pose proof (sig_play_after_stat k (st c) t H) as H1.
      by destruct (play_after_stat k (st c)).
    + unfold upload_after_write. destruct (write_ok w); cbn [fst snd st];
        by eapply sig_frame.
    + unfold upload_after_save. destruct (write_ok w); cbn [fst snd st];
        by eapply sig_frame.
    + cbn. by rewrite app_nil_r.
  - pose proof (sig_player_idle (st c) t H) as H1.
    by destruct (player_idle (st c)).
  - unfold proc_error. destruct (decide _); cbn [fst snd st];
      (eapply sig_frame; [exact H|..]); try done.
    + cbn. by rewrite length_alter.
    + intros h0. apply (killed_mark_done h0 h (st c)).
  - cbn [fst snd st]. by eapply sig_frame.
  - cbn [fst snd st]. by eapply sig_frame.
  - unfold client_ready; destruct (readyPending _), (guild && channel); cbn [fst snd st]; by eapply sig_frame.
Qed.

Lemma Reach_signalled c t : Reach c t -> signalled_ok (st c) t.
Proof.
  induction 1 as [d|c t i _ IH]; [|by apply sig_step].
  unfold signalled_ok. cbn. repeat split; try done.
  - apply NoDup_nil_2.
  - by intros ?%elem_of_nil.
Qed.

(** X9.  In every execution [kill()] is called at most once on a child,
    and only on a child the server has spawned.  Whenever [currentProcess]
    is not null its child has not been signalled, so the test of [.killed]
    in [stopCurrentPlayback] (line 258) never holds a signal back. *)
Theorem each_decoder_signalled_once (c : Config) (t : list Event) :
  Reach c t ->
  NoDup (kills t) /\
  (forall h, h ∈ kills t -> h ∈ spawned t) /\
  (forall h, currentProcess (st c) = Some h ->
     h ∈ spawned t /\ (h ∉ kills t) /\ killed h (st c) = false).
Proof.
  intros (H1 & H2 & H3 & H4 & H5)%Reach_signalled.
  split; [done|]. rewrite H1. split.
  - intros h Hh. apply H4, killed_lt in Hh. apply elem_of_seq. lia.
  - intros h [Hlt Hk]%H5. repeat split; [apply elem_of_seq; lia| |done].
    intros Hh%H4. congruence.
Qed.

Lemma each_decoder_signalled_once_witness :
  Reach demo_preempted.1 (demo_trace ++ demo_preempted.2) /\
  kills (demo_trace ++ demo_preempted.2) = [0] /\
  NoDup (kills (demo_trace ++ demo_preempted.2)).
Proof.
  assert (H : Reach demo_preempted.1 (demo_trace ++ demo_preempted.2)).
  { apply Reach_run. exact demo_reached_any. }
  split; [exact H|]. split; [by vm_compute|].
  exact (proj1 (each_decoder_signalled_once _ _ H)).
Defined.

(** X10.  In every execution the children are spawned in the order of
    their handles, and each spawn goes with one [{ status: 'Playing' }]
    answer: the number of plays accepted so far is the number of children
    spawned so far, which is the length of [procs]. *)
Theorem one_decoder_per_accepted_play (c : Config) (t : list Event) :
  Reach c t ->
  spawned t = seq 0 (length (procs (st c))) /\
  length (playing t) = length (spawned t).
Proof.
  intros (H1 & H2 & _)%Reach_signalled.
  split; [done|]. by rewrite H1, length_seq.
Qed.

Lemma one_decoder_per_accepted_play_witness :
  Reach demo_overlap.1 (demo_trace ++ demo_overlap.2) /\
  spawned (demo_trace ++ demo_overlap.2) = [0; 1; 2] /\
  length (playing (demo_trace ++ demo_overlap.2)) = 3.
Proof.
  assert (H : Reach demo_overlap.1 (demo_trace ++ demo_overlap.2)).
  { apply Reach_run. exact demo_reached_any. }
  split; [exact H|].
  destruct (one_decoder_per_accepted_play _ _ H) as [H1 H2].
  split; [by rewrite H1|]. rewrite H2, H1. by vm_compute.
Defined.

(** ** The WebSocket subscribers *)

Lemma open_clients_spec s n : n ∈ open_clients s <-> wsClients s !! n = Some true.
Proof.
  unfold open_clients. rewrite list_elem_of_filter, elem_of_seq. split.
  - intros [H _]. destruct (wsClients s !! n) as [[]|]; done.
  - intros H. rewrite H. split; [done|]. apply lookup_lt_Some in H. lia.
Qed.

Lemma play_after_stat_ws k s :
  Forall (fun e => ws_message e = None) (play_after_stat k s).2.
Proof.
  unfold play_after_stat, stopCurrentPlayback.
  destruct (disk s !! k_soundPath k); [|by repeat constructor].
  destruct (connection s); [|by repeat constructor]. cbn [negb].
  destruct (isPlaying s); [|by repeat constructor].
  destruct (currentProcess s) as [h|]; [destruct (killed h s)|];
    cbn [playerResource set_currentProcess kill set_procs];
    destruct (playerResource s); by repeat constructor.
Qed.

Lemma step_wsClients i c :
  wsClients (st (step i c).1) =
    match i with
    | WsConnect => wsClients (st c) ++ [true]
    | WsClose n => <[n := false]> (wsClients (st c))
    | _ => wsClients (st c)
    end.
Proof.
  destruct i as [sound| |file name em uuid| |n w| |h| |n|guild channel entered];
    unfold step.
  - by destruct (play_request _ _ _).
  - pose proof (stop_request_outside (nextReq c) (st c)) as H.
    destruct (stop_request _ _). by injection H.
  - by destruct (upload_request _ _ _ _ _).
  - done.
  - destruct (waiting c !! n) as [[k|u|u data]|] eqn:Hx; cbn [resume]; [| | |done].
    + pose proof (play_after_stat_outside k (st c)) as H.
      destruct (play_after_stat _ _). by injection H.
    + unfold upload_after_write. by destruct (write_ok w).
    + unfold upload_after_save. by destruct (write_ok w).
  - pose proof (player_idle_outside (st c)) as H.
    destruct (player_idle _). by injection H.
  - unfold proc_error. by destruct (decide _).
  - done.
  - done.
  - by unfold client_ready; destruct (readyPending _), (guild && channel).
Qed.

Lemma step_ws i c e l m :
  e ∈ (step i c).2 -> ws_message e = Some (l, m) ->
  m = soundMap (st c) /\
  ((i = WsConnect /\ l = [length (wsClients (st c))]) \/
   (l = open_clients (st c) /\ exists n, i = IoDone n Written)).
Proof.
  intros He Hm.
  assert (Hno : Forall (fun e => ws_message e = None) (step i c).2 -> False).
  { intros HF. rewrite Forall_forall in HF. apply HF in He. congruence. }
  destruct i as [sound| |file name em uuid| |n w| |h| |n|guild channel entered];
    unfold step in *.
  - exfalso. apply Hno. unfold play_request.
    case_read c sound; by repeat constructor.
  - exfalso. apply Hno. unfold stop_request.
    destruct (currentProcess (st c)); by repeat constructor.
  - exfalso. apply Hno.
    destruct (upload_request _ _ _ _ _) as [e'|u] eqn:E; cbn [snd]; [|constructor].
    rewrite (upload_request_invalid _ _ _ _ _ _ E). by repeat constructor.
  - exfalso. apply Hno. by repeat constructor.
  - destruct (waiting c !! n) as [[k|u|u data]|] eqn:Hx; cbn [resume] in *.
    + exfalso. apply Hno. pose proof (play_after_stat_ws k (st c)) as H.
      by destruct (play_after_stat k (st c)).
    + exfalso. apply Hno. unfold upload_after_write.
      destruct (write_ok w); by repeat constructor.
    + unfold upload_after_save, saveMap_settled, broadcastSoundMap in *.
      destruct w; cbn [write_ok fst snd] in *;
        [|exfalso; apply Hno; by repeat constructor..].
      apply elem_of_cons in He as [->|He]; [done|].
      apply elem_of_cons in He as [->|He].
      2:{ apply elem_of_cons in He as [->|He]; [done|]. by apply elem_of_nil in He. }
      injection Hm as <- <-. split; [done|]. right. split; [done|]. by exists n.
    + exfalso. apply Hno. constructor.
  - exfalso. apply Hno.
    pose proof (player_idle_Forall (fun e => ws_message e = None) (st c)) as H.
    destruct (player_idle (st c)). apply H; try done. intros ? ?. by repeat constructor.
  - exfalso. apply Hno. unfold proc_error. destruct (decide _); by repeat constructor.
  - cbn in He. apply elem_of_cons in He as [->|He]; [done|].
    apply elem_of_cons in He as [->|He]; [|by apply elem_of_nil in He].
    injection Hm as <- <-. split; [done|]. by left.
  - exfalso. apply Hno. by repeat constructor.
  - exfalso. apply Hno. unfold client_ready; destruct (readyPending _), (guild && channel); by repeat constructor.
Qed.

(** X11.  A WebSocket client that has closed is never sent anything again:
    through every execution that follows, no message on connection and no
    broadcast has it among its recipients, and it stays closed. *)
Theorem closed_client_gets_nothing (c : Config) (n : nat) (ins : list Input) :
  wsClients (st c) !! n = Some false ->
  wsClients (st (run ins c).1) !! n = Some false /\
  forall e l m, e ∈ (run ins c).2 -> ws_message e = Some (l, m) -> n ∉ l.
Proof.
  revert c. induction ins as [|i ins IH]; intros c Hn.
  { split; [done|]. intros e l m He. by apply elem_of_nil in He. }
  rewrite run_cons. cbn [fst snd].
  assert (Hn' : wsClients (st (step i c).1) !! n = Some false).
  { rewrite step_wsClients. destruct i; try done.
    - apply lookup_app_l_Some. done.
    - destruct (decide (i = n)) as [->|Hne].
      + apply list_lookup_insert_eq. by apply lookup_lt_Some in Hn.
      + by rewrite list_lookup_insert_ne. }
  destruct (IH _ Hn') as [H1 H2]. split; [done|].
  intros e l m [He|He]%elem_of_app Hm; [|by eapply H2].
  destruct (step_ws _ _ _ _ _ He Hm) as [_ [[_ ->]|[-> _]]].
  - intros ->%list_elem_of_singleton. apply lookup_lt_Some in Hn. lia.
  - rewrite open_clients_spec. congruence.
Qed.

Lemma closed_client_gets_nothing_witness :
  wsClients (st demo_closed) !! 0 = Some false /\
  forall e l m,
    e ∈ (run (WsConnect :: demo_bell_upload) demo_closed).2 ->
    ws_message e = Some (l, m) -> 0 ∉ l.
Proof.
  split; [by vm_compute|].
  apply (closed_client_gets_nothing demo_closed 0). by vm_compute.
Defined.

(** X12.  A client that connects is sent the registry at once, and from
    then on it is among the recipients of every broadcast until its
    connection closes; the same holds of any client that is open. *)
Theorem open_client_gets_every_broadcast (c : Config) (n : nat) (ins : list Input) :
  WsClose n ∉ ins ->
  (wsClients (st c) !! n = Some true ->
   forall l m, Broadcast l m ∈ (run ins c).2 -> n ∈ l) /\
  (n = length (wsClients (st c)) ->
   WsSend n (soundMap (st c)) ∈ (step WsConnect c).2 /\
   forall l m, Broadcast l m ∈ (run ins (step WsConnect c).1).2 -> n ∈ l).
Proof.
  intros Hins.
  assert (H : forall c, wsClients (st c) !! n = Some true ->
                forall l m, Broadcast l m ∈ (run ins c).2 -> n ∈ l).
  { clear c. induction ins as [|i ins IH]; intros c Hn l m He.
    { by apply elem_of_nil in He. }
    apply not_elem_of_cons in Hins as [Hi Hins].
    rewrite run_cons in He. cbn [fst snd] in He.
    apply elem_of_app in He as [He|He].
    - destruct (step_ws _ _ _ l m He eq_refl) as [_ [[-> _]|[-> _]]].
      + exfalso. cbn in He.
        repeat (apply elem_of_cons in He as [He|He]; [discriminate|]).
        by apply elem_of_nil in He.
      + by apply open_clients_spec.
    - eapply (IH Hins (step i c).1); [|exact He].
      rewrite step_wsClients. destruct i; try done.
      + by apply lookup_app_l_Some.
      + rewrite list_lookup_insert_ne; [done|congruence]. }
  split; [apply H|]. intros ->. split.
  - cbn. apply elem_of_cons. right. apply elem_of_cons. by left.
  - apply H. cbn. by rewrite lookup_app_r, Nat.sub_diag.
Qed.

Lemma open_client_gets_every_broadcast_witness :
  (WsClose 0 ∉ demo_bell_upload) /\
  forall l m,
    Broadcast l m ∈ (run demo_bell_upload (step WsConnect demo).1).2 -> 0 ∈ l.
Proof.
  assert (H : WsClose 0 ∉ demo_bell_upload).
  { intros H. repeat (apply elem_of_cons in H as [H|H]; [discriminate|]).
    by apply elem_of_nil in H. }
  split; [exact H|].
  exact (proj2 (proj2 (open_client_gets_every_broadcast demo 0 _ H) eq_refl)).
Defined.

(** ** The player's Idle listeners *)

Lemma finished_logs_app L1 L2 :
  finished_logs (L1 ++ L2) = finished_logs L1 ++ finished_logs L2.
Proof. unfold finished_logs. apply omap_app. Qed.

Lemma count_finished_logs L n : foldl count_play n (finished_logs L) = n.
Proof. induction L as [|[f|k] L IH]; cbn; auto. Qed.

Lemma play_start_listeners k s n :
  finished_listeners (play_start k s).1 = S (finished_listeners s) /\
  foldl count_play n (play_start k s).2 = S n.
Proof.
  unfold finished_listeners. cbn. rewrite finished_logs_app, length_app. cbn.
  split; [lia|done].
Qed.

Lemma resume_plays_listeners ks : forall s e n,
  finished_listeners (foldl resume_play (s, e) ks).1 = finished_listeners s + length ks /\
  foldl count_play n (foldl resume_play (s, e) ks).2 = foldl count_play n e + length ks /\
  exists rest, (foldl resume_play (s, e) ks).2 = e ++ rest.
Proof.
  induction ks as [|k ks IH]; intros s e n.
  { cbn. split; [lia|]. split; [lia|]. exists []. by rewrite app_nil_r. }
  cbn [foldl]. unfold resume_play at 2 4 6.
  destruct (play_start_listeners k s (foldl count_play n e)) as [H1 H2].
  destruct (play_start k s) as [s' e']. cbn [fst snd] in *.
  destruct (IH s' (e ++ e') n) as (-> & -> & rest & ->).
  rewrite foldl_app, H1, H2. cbn [length]. split; [lia|]. split; [lia|].
  exists (e' ++ rest). by rewrite app_assoc.
Qed.

Lemma player_idle_listeners s n :
  finished_listeners (player_idle s).1 = foldl count_play (finished_listeners s) (player_idle s).2 /\
  (n = finished_listeners s ->
   foldl count_play n (player_idle s).2 = finished_listeners (player_idle s).1).
Proof.
  assert (H : forall n, n = finished_listeners s ->
            foldl count_play n (player_idle s).2 = finished_listeners (player_idle s).1).
  { clear n. intros n ->. destruct (playerResource s) as [r|] eqn:Hr.
    - rewrite (player_idle_spec _ _ Hr).
      match goal with |- context [foldl resume_play (?s1, ?e1) ?ks] =>
        destruct (resume_plays_listeners ks s1 e1 (finished_listeners s))
          as (-> & -> & _) end.
      cbn [foldl count_play]. rewrite count_finished_logs.
      by destruct (existsb is_OnFinished (idleListeners s)).
    - unfold player_idle. by rewrite Hr. }
  split; [symmetry; by apply H|apply H].
Qed.

Lemma play_after_stat_listeners k s :
  foldl count_play (finished_listeners s) (play_after_stat k s).2
  = finished_listeners (play_after_stat k s).1.
Proof.
  unfold play_after_stat, stopCurrentPlayback, finished_listeners.
  destruct (disk s !! k_soundPath k); [|done].
  destruct (connection s); [|done]. cbn [negb].
  destruct (isPlaying s).
  2:{ cbn. rewrite finished_logs_app, length_app. cbn. lia. }
  destruct (currentProcess s) as [h|]; [destruct (killed h s)|];
    cbn [playerResource set_currentProcess kill set_procs];
    destruct (playerResource s); cbn; rewrite finished_logs_app, length_app; cbn; lia.
Qed.

Lemma step_listeners i c :
  foldl count_play (finished_listeners (st c)) (step i c).2
  = finished_listeners (st (step i c).1).
Proof.
  destruct i as [sound| |file name em uuid| |n w| |h| |n|guild channel entered];
    unfold step.
  - unfold play_request. by case_read c sound.
  - unfold stop_request. by destruct (currentProcess (st c)).
  - destruct (upload_request _ _ _ _ _) as [e|u] eqn:E; [|done].
    by rewrite (upload_request_invalid _ _ _ _ _ _ E).
  - done.
  - destruct (waiting c !! n) as [[k|u|u data]|]; cbn [resume]; [| | |done].
    + pose proof (play_after_stat_listeners k (st c)) as H.
      by destruct (play_after_stat k (st c)).
    + unfold upload_after_write. by destruct (write_ok w).
    + unfold upload_after_save. by destruct (write_ok w).
  - destruct (player_idle_listeners (st c) (finished_listeners (st c))) as [_ H].
    specialize (H eq_refl). by destruct (player_idle (st c)).
  - unfold proc_error. by destruct (decide _).
  - done.
  - done.
  - by unfold client_ready; destruct (readyPending _), (guild && channel).
Qed.

(** X13.  A finished-playing listener is registered for every play that is
    answered [Playing], and only the player's turning Idle takes listeners
    off: [/stop] and a preempting [/play] leave them in place.  So in every
    execution the player carries one such listener for each play accepted
    since it last turned Idle, and the next Idle event logs a "Finished
    playing" line for each of them, stopped or not. *)
Theorem finished_listeners_pile_up (c : Config) (t : list Event) :
  Reach c t ->
  finished_listeners (st c) = open_plays t /\
  forall r, playerResource (st c) = Some r ->
    exists rest,
      (step Idle c).2 = PlayerIdle r :: finished_logs (idleListeners (st c)) ++ rest /\
      length (finished_logs (idleListeners (st c))) = open_plays t.
Proof.
  intros HR.
  assert (H : finished_listeners (st c) = open_plays t).
  { induction HR as [d|c t i _ IH]; [done|].
    unfold open_plays in *. rewrite foldl_app, <- IH. symmetry. apply step_listeners. }
  split; [exact H|]. intros r Hr. rewrite step_Idle. cbn [snd].
  rewrite (player_idle_spec _ _ Hr).
  match goal with |- context [foldl resume_play (?s1, ?e1) ?ks] =>
    destruct (resume_plays_listeners ks s1 e1 0) as (_ & _ & rest & ->) end.
  exists rest. split; [done|exact H].
Qed.

Lemma finished_listeners_pile_up_witness :
  Reach demo_stop_between.1 (demo_trace ++ demo_stop_between.2) /\
  open_plays (demo_trace ++ demo_stop_between.2) = 2 /\
  finished_listeners (st demo_stop_between.1) = 2.
Proof.
  assert (H : Reach demo_stop_between.1 (demo_trace ++ demo_stop_between.2)).
  { apply Reach_run. exact demo_reached_any. }
  split; [exact H|]. split; [by vm_compute|].
  rewrite (proj1 (finished_listeners_pile_up _ _ H)). by vm_compute.
Defined.

Lemma resume_plays_playing ks : forall s e,
  playing (foldl resume_play (s, e) ks).2 = playing e ++ map k_rid ks /\
  (ks = [] \/
   (isPlaying (foldl resume_play (s, e) ks).1 = true /\
    is_Some (currentProcess (foldl resume_play (s, e) ks).1))).
Proof.
  induction ks as [|k ks IH]; intros s e.
  { cbn. rewrite app_nil_r. split; [done|by left]. }
  cbn [foldl]. unfold resume_play at 2 4 6. cbn [play_start].
  match goal with |- context [foldl resume_play (?s1, ?e1) ks] =>
    destruct (IH s1 e1) as [E H] end.
  split.
  - rewrite E, playing_app. cbn. by rewrite <- app_assoc.
  - right. destruct H as [->|H]; [|done]. cbn. eauto.
Qed.

(** X14.  [/stop] does not call off a [/play] that is waiting at line 199
    for the player to turn Idle: the stop is answered [Stopped], and when
    the Idle event arrives the waiting play goes ahead all the same, is
    answered [Playing] and leaves the server playing. *)
Theorem stop_leaves_waiting_play (c : Config) (r : Handle) (k : PlayK) :
  playerResource (st c) = Some r ->
  k ∈ stopped_ks (idleListeners (st c)) ->
  Respond (nextReq c) (ResJson 200 (BStatus "Stopped")) ∈ (step ReqStop c).2 /\
  isPlaying (st (step ReqStop c).1) = false /\
  k_rid k ∈ playing (run [ReqStop; Idle] c).2 /\
  isPlaying (st (run [ReqStop; Idle] c).1) = true /\
  is_Some (currentProcess (st (run [ReqStop; Idle] c).1)).
Proof.
  intros Hr Hk.
  assert (Hs : exists s1 e1, step ReqStop c = (mkConfig s1 (waiting c) (S (nextReq c)), e1) /\
             Respond (nextReq c) (ResJson 200 (BStatus "Stopped")) ∈ e1 /\
             isPlaying s1 = false /\ playerResource s1 = Some r /\
             idleListeners s1 = idleListeners (st c)).
  { unfold step, stop_request. destruct (currentProcess (st c)); cbn;
      eexists _, _; (split; [reflexivity|]); (split; [|done]);
      repeat (apply elem_of_cons; first [by left | right]). }
  destruct Hs as (s1 & e1 & E & Hin & Hp & Hr1 & HL).
  rewrite !run_cons, run_nil, E. cbn [fst snd]. rewrite step_Idle. cbn [fst snd st].
  split; [done|]. split; [done|].
  rewrite (player_idle_spec _ _ Hr1), app_nil_r, HL.
  match goal with |- context [foldl resume_play (?s0, ?e0) ?ks] =>
    destruct (resume_plays_playing ks s0 e0) as [Ep H] end.
  rewrite playing_app, Ep. split.
  - apply elem_of_app. right. apply elem_of_app. right.
    apply list_elem_of_fmap. by exists k.
  - destruct H as [E0|H]; [|done]. rewrite E0 in Hk. by apply elem_of_nil in Hk.
Qed.

Lemma stop_leaves_waiting_play_witness :
  SReach demo_waiting
    (demo_trace ++ (run [ReqPlay "siren"; IoDone 0 Written;
                         ReqPlay "horn"; IoDone 0 Written] demo).2) /\
  1 ∈ playing (run [ReqStop; Idle] demo_waiting).2 /\
  isPlaying (st (run [ReqStop; Idle] demo_waiting).1) = true.
Proof.
  split; [apply SReach_run; [exact demo_reached|by vm_compute]|].
  assert (Hk : mkPlayK 1 "horn" horn "sounds/horn.mp3"
                 ∈ stopped_ks (idleListeners (st demo_waiting))).
  { vm_compute. by left. }
  destruct (stop_leaves_waiting_play demo_waiting 0 _ eq_refl Hk) as (_ & _ & H1 & H2 & _).
  by split.
Defined.

(** ** A clip that plays to its end *)

(** X15.  In a serialized execution, when the player turns Idle while a
    clip is the current process, the slot is free again: the step only logs
    the finished-playing lines, no handler is resumed, the player holds
    nothing, no listener is left and no decoder is active. *)
Theorem finished_clip_frees_slot (c : Config) (t : list Event) (h : Handle) :
  SReach c t -> currentProcess (st c) = Some h ->
  (step Idle c).2 = PlayerIdle h :: finished_logs (idleListeners (st c)) /\
  slot_idle (st (step Idle c).1) /\
  playerResource (st (step Idle c).1) = None /\
  idleListeners (st (step Idle c).1) = [] /\
  active_handles (st (step Idle c).1) = [] /\
  waiting (step Idle c).1 = waiting c.
Proof.
  intros HR Hcp. destruct (SReach_inv _ _ HR) as (HI & _ & _).
  destruct (inv_current _ HI _ Hcp) as (_ & Hr & _ & Hfin).
  assert (Hks : stopped_ks (idleListeners (st c)) = []).
  { apply awaiting_idle_stopped. destruct (awaiting_idle (st c)) eqn:E; [|done].
    pose proof (inv_awaiting _ HI E). congruence. }
  pose proof (SReach_step _ _ Idle HR eq_refl) as HR'.
  destruct (SReach_inv _ _ HR') as (HI' & _ & _).
  pose proof (active_handles_inv _ HI') as Hact. revert Hact.
  rewrite step_Idle. cbn [fst snd st waiting].
  rewrite (player_idle_spec _ _ Hr), Hks, Hfin. cbn [foldl fst snd].
  intros Hact. repeat split; done.
Qed.

Lemma finished_clip_frees_slot_witness :
  SReach (play_call "siren" demo).1 (demo_trace ++ (play_call "siren" demo).2) /\
  (step Idle (play_call "siren" demo).1).2
    = [PlayerIdle 0; Console (LFinished "siren.mp3")] /\
  slot_idle (st (step Idle (play_call "siren" demo).1).1).
Proof.
  assert (H : SReach (play_call "siren" demo).1 (demo_trace ++ (play_call "siren" demo).2)).
  { apply SReach_play_call; [exact demo_reached|by vm_compute]. }
  split; [exact H|].
  destruct (finished_clip_frees_slot _ _ 0 H eq_refl) as (E & Hs & _).
  split; [|exact Hs]. rewrite E. by vm_compute.
Defined.

(** ** Upload, then play *)

(** X16.  In a serialized execution with the bot connected, a clip can be
    played as soon as its upload has written the sound file, whether the
    snapshot write that follows completes or fails: the play of the new
    name is answered [Playing], and its decoder reads the file the upload
    wrote. *)
Theorem uploaded_clip_plays (c : Config) (t : list Event) (f : UploadedFile)
    (n : string) (emoji : option string) (uuid : string) (w2 : WriteOutcome) :
  SReach c t -> quiescent c = true -> connection (st c) = true -> n <> "" ->
  let u := upload_k c f n emoji uuid in
  let c1 := (upload_call (Some f) (Some n) emoji uuid Written w2 c).1 in
  last (play_call n c1).2
    = Some (Respond (nextReq c1) (ResJson 200 (BStatus "Playing"))) /\
  procs (st (play_call n c1).1) !! length (procs (st c))
    = Some (mkProc (u_filepath u) false false) /\
  currentProcess (st (play_call n c1).1) = Some (length (procs (st c))).
Proof.
  intros HR Hq Hc Hn u c1.
  pose proof Hq as [Hw Ha]%quiescent_spec.
  assert (Hs : serial_run [ReqUpload (Some f) (Some n) emoji uuid;
                           IoDone 0 Written; IoDone 0 w2] c = true).
  { cbn [serial_run serial]. by rewrite Hq. }
  pose proof (SReach_run _ _ _ HR Hs) as HR1. fold (upload_call (Some f) (Some n) emoji uuid Written w2 c) in HR1.
  fold c1 in HR1. destruct (SReach_inv _ _ HR1) as (HI1 & _ & _).
  destruct (upload_put_facts c f n emoji uuid w2 Hw Hn) as (_ & _ & _ & Hm & _).
  cbn zeta in Hm. fold c1 in Hm.
  assert (E : waiting c1 = [] /\ idleListeners (st c1) = idleListeners (st c) /\
              procs (st c1) = procs (st c) /\ connection (st c1) = connection (st c) /\
              is_Some (disk (st c1) !! u_filepath u)).
  { subst c1. rewrite (upload_call_valid c f n emoji uuid Written w2 Hw Hn). fold u.
    cbn [write_ok]. rewrite upload_after_write_ok. cbn [fst snd st].
    unfold upload_after_save, saveMap_settled.
    destruct (write_ok w2); cbn [fst st waiting idleListeners procs connection disk
                                 set_disk set_soundMap];
      repeat split; apply fs_writeFile_keeps; rewrite lookup_insert_eq; eauto. }
  destruct E as (Hw1 & HL & Hp & Hc1 & Hd).
  assert (Hq1 : quiescent c1 = true).
  { apply quiescent_spec. split; [done|]. unfold awaiting_idle in *. by rewrite HL. }
  assert (Hm1 : soundMap (st c1) !! n = Some (mkClip (u_filename u) (js_or emoji ""))).
  { rewrite Hm. apply lookup_insert_eq. }
  destruct (play_call_accepted_post c1 n _ HI1 Hq1 Hm1 Hd ltac:(congruence))
    as (_ & _ & _ & _ & _ & _ & H1 & _ & _ & H2 & H3).
  rewrite Hp in H1, H2. done.
Qed.

Lemma uploaded_clip_plays_witness :
  SReach demo demo_trace /\ quiescent demo = true /\ connection (st demo) = true /\
  "bell" <> "" /\
  procs (st (play_call "bell" demo_torn.1).1) !! 0
    = Some (mkProc "sounds/0000.wav" false false).
Proof.
  assert (H2 : quiescent demo = true) by by_running.
  assert (H3 : connection (st demo) = true) by by_running.
  assert (H4 : "bell" <> "") by discriminate.
  split; [exact demo_reached|]. split; [exact H2|]. split; [exact H3|]. split; [exact H4|].
  exact (proj1 (proj2 (uploaded_clip_plays demo _ (mkFile ".wav" []) "bell" None "0000"
                         (FailedTorn 0) demo_reached H2 H3 H4))).
Defined.

(** ** The registry and the files behind it *)

Lemma susp_backed_mono (d d' : Disk) x :
  (forall p, is_Some (d !! p) -> is_Some (d' !! p)) ->
  susp_backed d x -> susp_backed d' x.
Proof. intros H. destruct x; cbn; auto. Qed.

Lemma not_file_missing e :
  (forall rid f,
     e <> Respond rid (ResJson 404 (BError ("File '" +:+ f +:+ "' does not exist")))) ->
  ~ file_missing e.
Proof. intros He (rid & f & ->). by eapply He. Qed.

Ltac no_file_missing :=
  repeat constructor; apply not_file_missing; intros ? ? Hfm; cbn in Hfm; discriminate Hfm.

Lemma play_after_stat_found k s :
  is_Some (disk s !! k_soundPath k) ->
  Forall (fun e => ~ file_missing e) (play_after_stat k s).2.
Proof.
  intros [fd Hd]. unfold play_after_stat, stopCurrentPlayback. rewrite Hd.
  destruct (connection s); cbn [negb]; [|no_file_missing].
  destruct (isPlaying s); [|cbn; no_file_missing].
  destruct (currentProcess s) as [h|]; [destruct (killed h s)|];
    cbn [playerResource set_currentProcess kill set_procs];
    destruct (playerResource s); cbn; no_file_missing.
Qed.

Lemma step_backed i c :
  backed c ->
  backed (step i c).1 /\ Forall (fun e => ~ file_missing e) (step i c).2.
Proof.
  intros [Hmap Hwait].
  pose proof (proj2 (step_disk i c)) as Hkeep.
  assert (Hmono : forall l, Forall (susp_backed (disk (st c))) l ->
                            Forall (susp_backed (disk (st (step i c).1))) l).
  { intros l Hl. eapply Forall_impl; [exact Hl|]. intros x. by apply susp_backed_mono. }
  assert (Hsame : soundMap (st (step i c).1) = soundMap (st c) ->
            forall n clip, soundMap (st (step i c).1) !! n = Some clip ->
              is_Some (disk (st (step i c).1) !! path_join SOUND_DIR (filename clip))).
  { intros -> n clip H. eauto. }
  unfold backed.
  destruct i as [sound| |file name em uuid| |n w| |h| |n|guild channel entered].
  - split; [split|].
    + apply Hsame. unfold step. by destruct (play_request _ _ _).
    + specialize (Hmono (waiting (step (ReqPlay sound) c).1)). apply Hmono.
      unfold step, play_request. destruct (soundMap (st c) !! sound) as [d|] eqn:E;
        cbn [fst waiting]; [|by destruct (inherited _ _)].
      apply Forall_app. split; [done|]. repeat constructor. cbn. eauto.
    + unfold step, play_request. case_read c sound; cbn [snd];
        no_file_missing.
  - split; [split|].
    + apply Hsame. pose proof (stop_request_outside (nextReq c) (st c)) as H.
      unfold step. destruct (stop_request _ _). by injection H.
    + apply Hmono. unfold step. by destruct (stop_request _ _).
    + unfold step, stop_request. destruct (currentProcess (st c)); cbn; no_file_missing.
  - split; [split|].
    + apply Hsame. unfold step. by destruct (upload_request _ _ _ _ _).
    + apply Hmono. unfold step, upload_request.
      destruct file as [f|]; [|done]. destruct name as [nm|]; [|done].
      destruct (decide (nm = "")); [done|]. cbn [fst waiting].
      apply Forall_app. split; [done|]. by repeat constructor.
    + unfold step.
      destruct (upload_request _ _ _ _ _) as [e|u] eqn:E; cbn [snd]; [|constructor].
      rewrite (upload_request_invalid _ _ _ _ _ _ E). no_file_missing.
  - split; [split|]; [by apply Hsame|by apply Hmono|no_file_missing].
  - destruct (waiting c !! n) as [x|] eqn:Hx.
    2:{ unfold step. rewrite Hx. by repeat split. }
    assert (Hx' : susp_backed (disk (st c)) x).
    { rewrite Forall_lookup in Hwait. eauto. }
    assert (Hdel : Forall (susp_backed (disk (st (step (IoDone n w) c).1)))
                          (delete n (waiting c))).
    { apply Hmono. by apply Forall_delete. }
    destruct x as [k|u|u data]; cbn [susp_backed] in Hx'.
    + split; [split|].
      * apply Hsame. unfold step. rewrite Hx. cbn [resume].
        pose proof (play_after_stat_outside k (st c)) as H.
        destruct (play_after_stat _ _). by injection H.
      * revert Hdel. unfold step. rewrite Hx. cbn [resume].
        destruct (play_after_stat k (st c)). cbn [fst snd st waiting option_list].
        by rewrite app_nil_r.
      * unfold step. rewrite Hx. cbn [resume].
        pose proof (play_after_stat_found k (st c) Hx') as H.
        by destruct (play_after_stat k (st c)).
    + revert Hkeep Hdel. unfold step. rewrite Hx. cbn [resume]. unfold upload_after_write.
      destruct w; cbn [write_ok fst snd st waiting option_list disk soundMap
                       set_disk set_soundMap fs_writeFile]; intros Hkeep Hdel.
      * split; [split|]; [| |no_file_missing].
        -- intros a clip [[<- <-]|[_ H]]%lookup_insert_Some; [|eauto].
           cbn [filename]. rewrite <- Hx', lookup_insert_eq. eauto.
        -- apply Forall_app. split; [done|]. by repeat constructor.
      * split; [split|]; [eauto|by rewrite app_nil_r|no_file_missing].
      * split; [split|]; [eauto|by rewrite app_nil_r|no_file_missing].
    + revert Hkeep Hdel. unfold step. rewrite Hx. cbn [resume].
      unfold upload_after_save, saveMap_settled, broadcastSoundMap.
      destruct (write_ok w); cbn [fst snd st waiting option_list disk soundMap set_disk];
        intros Hkeep Hdel;
        ((split; [split|]); [eauto|by rewrite app_nil_r|no_file_missing]).
  - split; [split|].
    + apply Hsame. pose proof (player_idle_outside (st c)) as H.
      unfold step. destruct (player_idle _). by injection H.
    + apply Hmono. unfold step. by destruct (player_idle _).
    + rewrite step_Idle. cbn [snd]. apply player_idle_Forall.
      * intros r. apply not_file_missing. discriminate.
      * intros f. apply not_file_missing. discriminate.
      * intros k s. cbn. no_file_missing.
  - split; [split|].
    + apply Hsame. unfold step, proc_error. by destruct (decide _).
    + apply Hmono. unfold step, proc_error. by destruct (decide _).
    + unfold step, proc_error. destruct (decide _); cbn; no_file_missing.
  - split; [split|]; [by apply Hsame|by apply Hmono|no_file_missing].
  - split; [split|]; [by apply Hsame|by apply Hmono|no_file_missing].
  - split; [split|].
    + apply Hsame. unfold step. by unfold client_ready; destruct (readyPending _), (guild && channel).
    + apply Hmono. unfold step. by unfold client_ready; destruct (readyPending _), (guild && channel).
    + unfold step. unfold client_ready; destruct (readyPending _), (guild && channel); no_file_missing.
Qed.

(** X17.  Once every entry of the registry has its file on disk, this
    stays so through every execution: an upload puts its entry in the map
    only after its file was written, under the very name the entry records,
    and nothing removes a file.  From then on no play is answered
    "File ... does not exist". *)
Theorem registry_stays_backed (c : Config) (ins : list Input) :
  backed c ->
  backed (run ins c).1 /\ Forall (fun e => ~ file_missing e) (run ins c).2.
Proof.
  revert c. induction ins as [|i ins IH]; intros c Hb; [by split|].
  rewrite run_cons. cbn [fst snd].
  destruct (step_backed i c Hb) as [Hb' He].
  destruct (IH _ Hb') as [Hb'' He']. split; [done|]. apply Forall_app. by split.
Qed.

Lemma registry_stays_backed_witness :
  backed demo /\ backed demo_two_uploads.1.
Proof.
  assert (H : backed demo).
  { split; [|by constructor].
    assert (Em : soundMap (st demo) = demo_map) by by_running.
    assert (Ed : disk (st demo) = demo_disk) by by_running.
    rewrite Em, Ed. unfold demo_map.
    intros n clip [[<- <-]|[_ [[<- <-]|[_ H]]%lookup_insert_Some]]%lookup_insert_Some.
    - exists (Whole (Raw [])). by_running.
    - exists (Whole (Raw [])). by_running.
    - by rewrite lookup_empty in H. }
  split; [exact H|]. exact (proj1 (registry_stays_backed demo _ H)).
Defined.
